(** * The asynchronous logging core of spdlog: the worker thread pool

    A shallow embedding of [spdlog::details::thread_pool]
    (include/spdlog/details/thread_pool.h and thread_pool-inl.h): the message
    envelope [async_msg], the pool's constructor and destructor, the
    submission operations [post_log], [post_flush] and [post_async_msg_], and
    the workers' drain loop [worker_loop_] / [process_next_msg_].

    Every member function is a computation in a state-and-outcome monad over
    the pool's memory; the threads of the program are then interleaved by a
    scheduler that runs one member function, or one iteration of a loop, at a
    time. *)

From Stdlib Require Import ZArith NArith Lia String Ascii.
From stdpp Require Import base list.

Local Open Scope Z_scope.

(** ** Outcomes of a call *)

(** What a C++ call can raise. [spdlog_ex] is the library's own exception;
    [std_exception] stands for every other [std::exception]. *)
Inductive exn :=
| spdlog_ex (what : string)
| std_exception (what : string).

(** Ways of leaving the defined behaviour of the program. *)
Inductive fault :=
| null_dereference
| assertion_failure.

(** A call returns a value, throws, stays suspended on a condition variable
    (it cannot complete in the current state), or faults. *)
Inductive outcome (A : Type) :=
| Returns (a : A)
| Throws (e : exn)
| Blocks
| Faults (f : fault).

Arguments Returns {A} a.
Arguments Throws {A} e.
Arguments Blocks {A}.
Arguments Faults {A} f.

(** State passing with outcomes: the state reached when a call throws is
    kept, as side effects made before a C++ exception are. *)
Definition M (S A : Type) : Type := S -> outcome A * S.

Definition ret {S A} (a : A) : M S A := fun s => (Returns a, s).

Definition bind {S A B} (m : M S A) (k : A -> M S B) : M S B :=
  fun s =>
    match m s with
    | (Returns a, s') => k a s'
    | (Throws e, s') => (Throws e, s')
    | (Blocks, s') => (Blocks, s')
    | (Faults f, s') => (Faults f, s')
    end.

Definition throw {S A} (e : exn) : M S A := fun s => (Throws e, s).
Definition abort {S A} (f : fault) : M S A := fun s => (Faults f, s).

Declare Scope pool_scope.
Delimit Scope pool_scope with pool.
Notation "x <- c1 ;; c2" := (bind c1 (fun x => c2))
  (at level 100, c1 at next level, right associativity) : pool_scope.
Notation "c1 ;; c2" := (bind c1 (fun _ => c2))
  (at level 100, right associativity) : pool_scope.

(** ** Data model *)

Definition size_t := N.

(** [std::shared_ptr<spdlog::async_logger>]: empty, or one reference to the
    logger object with the given identity. *)
Definition logger_id := N.
Definition async_logger_ptr := option logger_id.

(** [std::move] of a shared pointer into a new one: the pointer obtained, and
    the source, which the move leaves empty. *)
Definition move_ptr (p : async_logger_ptr) : async_logger_ptr * async_logger_ptr :=
  (p, None).

(** The number of references to logger [l] among the given holders. *)
Definition use_count (l : logger_id) (holders : list async_logger_ptr) : nat :=
  length (filter (fun p => p = Some l) holders).

(** [enum class async_msg_type { log, flush, terminate }].  An object of the
    enumeration stores a value of its underlying type [int], and the drain
    loop switches on it with a [default] arm, so the tag is kept as the
    integer it is. *)
Module async_msg_type.
Definition t := Z.
Definition log : t := 0.
Definition flush : t := 1.
Definition terminate : t := 2.
End async_msg_type.

(** A [string_view]: [size] characters starting at [data], in memory that the
    view does not own. *)
Record string_view := { data : nat; size : nat }.

Definition memory := list ascii.

Definition view_chars (mem : memory) (v : string_view) : list ascii :=
  take (size v) (drop (data v) mem).

(** Modelled from the spec: the log record of details/log_msg.h, which is not
    among the sources: "timestamp, level, source location, rendered text". The
    text is a view into memory of the producer. *)
Record log_msg := {
  time : Z;
  level : Z;
  source : Z;
  payload : string_view
}.

(** Modelled from the spec: [log_msg_buffer] of details/log_msg_buffer.h,
    which is not among the sources: "an owned, self-contained copy of a log
    record".  The characters are copied into [buffer] and the view of the
    record is made to point into it. *)
Record log_msg_buffer := {
  record : log_msg;
  buffer : memory
}.

Definition log_msg_buffer_default : log_msg_buffer :=
  {| record := {| time := 0; level := 0; source := 0;
                  payload := {| data := 0; size := 0 |} |};
     buffer := [] |}.

Definition log_msg_buffer_ctor (stack : memory) (m : log_msg) : log_msg_buffer :=
  let chars := view_chars stack (payload m) in
  {| record := {| time := time m; level := level m; source := source m;
                  payload := {| data := 0; size := length chars |} |};
     buffer := chars |}.

(** The text of a buffered record, read from its own buffer. *)
Definition buffered_text (b : log_msg_buffer) : list ascii :=
  view_chars (buffer b) (payload (record b)).

(** [struct async_msg : log_msg_buffer].  Its copy constructor is deleted: an
    envelope is only ever moved, and every function below that takes one
    hands it on without keeping it. *)
Record async_msg := {
  base : log_msg_buffer;
  msg_type : async_msg_type.t;
  worker_ptr : async_logger_ptr
}.

(** [async_msg() = default]. *)
Definition async_msg_default : async_msg :=
  {| base := log_msg_buffer_default;
     msg_type := async_msg_type.log;
     worker_ptr := None |}.

(** [async_msg(async_logger_ptr &&worker, async_msg_type the_type, const log_msg &m)]:
    the envelope, and what is left in [worker]. *)
Definition async_msg_ctor3 (stack : memory) (worker : async_logger_ptr)
    (the_type : async_msg_type.t) (m : log_msg) : async_msg * async_logger_ptr :=
  let '(p, worker') := move_ptr worker in
  ({| base := log_msg_buffer_ctor stack m; msg_type := the_type; worker_ptr := p |},
   worker').

(** [async_msg(async_logger_ptr &&worker, async_msg_type the_type)]. *)
Definition async_msg_ctor2 (worker : async_logger_ptr) (the_type : async_msg_type.t)
    : async_msg * async_logger_ptr :=
  let '(p, worker') := move_ptr worker in
  ({| base := log_msg_buffer_default; msg_type := the_type; worker_ptr := p |},
   worker').

(** [explicit async_msg(async_msg_type the_type) : async_msg{nullptr, the_type}]. *)
Definition async_msg_ctor1 (the_type : async_msg_type.t) : async_msg :=
  fst (async_msg_ctor2 None the_type).

(** Modelled from the spec: [async_overflow_policy] of common.h, which is not
    among the sources: "exactly two policies, chosen per call by the
    producer", block and discard-on-full. *)
Inductive async_overflow_policy := block | discard.

Definition is_block (p : async_overflow_policy) : bool :=
  match p with block => true | discard => false end.

(** ** The bounded queue *)

(** Modelled from the spec: [mpmc_blocking_queue] of
    details/mpmc_blocking_q.h, which is not among the sources: a fixed
    [capacity], a FIFO [storage] and the [overrun_count] of discarded
    envelopes.  Each operation runs under the queue's mutex, so it is one
    atomic state change. *)
Record mpmc_blocking_queue := {
  capacity : N;
  storage : list async_msg;
  overrun_count : N
}.

Definition mpmc_blocking_queue_ctor (max_items : size_t) : mpmc_blocking_queue :=
  {| capacity := max_items; storage := []; overrun_count := 0 |}.

Definition q_size (q : mpmc_blocking_queue) : size_t := N.of_nat (length (storage q)).

Definition full (q : mpmc_blocking_queue) : bool := (capacity q <=? q_size q)%N.

Definition push_back (item : async_msg) (q : mpmc_blocking_queue) : mpmc_blocking_queue :=
  {| capacity := capacity q; storage := storage q ++ [item];
     overrun_count := overrun_count q |}.

(** Modelled from the spec: "if full, the calling thread suspends until space
    frees; then inserts at the tail. Never drops data." *)
Definition enqueue (item : async_msg) : M mpmc_blocking_queue unit :=
  fun q => if full q then (Blocks, q) else (Returns tt, push_back item q).

(** Modelled from the spec: "if full, immediately discards item and
    increments overrun_count; otherwise behaves like the blocking variant.
    Returns without suspending." *)
Definition enqueue_nowait (item : async_msg) : M mpmc_blocking_queue unit :=
  fun q =>
    if full q
    then (Returns tt, {| capacity := capacity q; storage := storage q;
                         overrun_count := (overrun_count q + 1)%N |})
    else (Returns tt, push_back item q).

(** Modelled from the spec: "suspends the calling thread until an item is
    available or timeout elapses; on success removes and returns the head
    item; on timeout returns a no-item result without error".  The call
    [dequeue_for(popped_item, wait_duration)] returns whether an item was
    popped, and [popped_item] afterwards. *)
Definition dequeue_for (popped_item : async_msg) : M mpmc_blocking_queue (bool * async_msg) :=
  fun q =>
    match storage q with
    | [] => (Returns (false, popped_item), q)
    | item :: rest =>
        (Returns (true, item),
         {| capacity := capacity q; storage := rest; overrun_count := overrun_count q |})
    end.

(** ** The pool and what surrounds it *)

(** A function of a collaborator, acting on the state [world] of the
    destinations: it returns, or it raises an exception. *)
Definition external (world : Type) : Type := world -> option exn * world.

(** What the pool is built and linked with: whether [NDEBUG] is defined (then
    [assert] expands to nothing), and the two member functions of
    [async_logger] that a worker calls through the envelope's target. *)
Class Environment (world : Type) := {
  NDEBUG : bool;
  backend_sink_it_ : logger_id -> async_msg -> external world;
  backend_flush_ : logger_id -> external world
}.

(** The states of a worker thread: created and about to run its start-up
    hook, in the drain loop, returned from it. *)
Inductive worker_state := Starting | Running | Exited.

(** A [std::thread] of [threads_]: the hook captured by its closure, how far
    the thread has got, and whether it has been joined. *)
Record thread (world : Type) := {
  on_thread_start : external world;
  state : worker_state;
  joined : bool
}.
Arguments on_thread_start {world} _.
Arguments state {world} _.
Arguments joined {world} _.

(** [class thread_pool]: its two data members. *)
Record thread_pool (world : Type) := {
  q_ : mpmc_blocking_queue;
  threads_ : list (thread world)
}.
Arguments q_ {world} _.
Arguments threads_ {world} _.

(** The memory the member functions act on: the pool object and the
    destinations. *)
Record machine (world : Type) := {
  pool : thread_pool world;
  env : world
}.
Arguments pool {world} _.
Arguments env {world} _.

Definition with_q {world A} (f : M mpmc_blocking_queue A) : M (machine world) A :=
  fun s =>
    let '(r, q') := f (q_ (pool s)) in
    (r, {| pool := {| q_ := q'; threads_ := threads_ (pool s) |}; env := env s |}).

(** A call of a collaborator's function. *)
Definition call {world} (f : external world) : M (machine world) unit :=
  fun s =>
    let '(r, e') := f (env s) in
    (match r with None => Returns tt | Some x => Throws x end,
     {| pool := pool s; env := e' |}).

Definition with_threads {world} (f : list (thread world) -> list (thread world))
    : M (machine world) unit :=
  fun s =>
    (Returns tt,
     {| pool := {| q_ := q_ (pool s); threads_ := f (threads_ (pool s)) |};
        env := env s |}).

(** The memory with the queue's content, or the destinations, replaced. *)
Definition set_storage {world} (l : list async_msg) (s : machine world) : machine world :=
  {| pool := {| q_ := {| capacity := capacity (q_ (pool s)); storage := l;
                         overrun_count := overrun_count (q_ (pool s)) |};
                threads_ := threads_ (pool s) |};
     env := env s |}.

Definition set_env {world} (e : world) (s : machine world) : machine world :=
  {| pool := pool s; env := e |}.

(** [p->f(...)] through a shared pointer. *)
Definition deref {S} (p : async_logger_ptr) : M S logger_id :=
  match p with
  | Some l => ret l
  | None => abort null_dereference
  end.

(** [SPDLOG_TRY { body } SPDLOG_CATCH_STD]: an exception of [body] is
    swallowed. *)
Definition try_catch_std {S A} (body : M S A) (otherwise : A) : M S A :=
  fun s =>
    match body s with
    | (Throws _, s') => (Returns otherwise, s')
    | r => r
    end.

(** ** Construction *)

Definition new_thread {world} (on_thread_start : external world) : thread world :=
  {| on_thread_start := on_thread_start; state := Starting; joined := false |}.

Definition invalid_threads_n : string :=
  "spdlog::thread_pool(): invalid threads_n param (valid range is 1-1000)".

(** The body of
    [thread_pool::thread_pool(size_t q_max_items, size_t threads_n, std::function<void()> on_thread_start)]. *)
Definition thread_pool_body {world} (threads_n : size_t) (on_thread_start : external world)
    : M (machine world) unit :=
  ((if (threads_n =? 0)%N || (1000 <? threads_n)%N
    then throw (spdlog_ex invalid_threads_n)
    else ret tt) ;;
   N.iter threads_n
     (fun rest => with_threads (fun ts => ts ++ [new_thread on_thread_start]) ;; rest)
     (ret tt))%pool.

(** The constructor: the member initialiser [q_(q_max_items)], then the body. *)
Definition thread_pool_ctor {world} (q_max_items threads_n : size_t)
    (on_thread_start : external world) (e : world) : outcome unit * machine world :=
  thread_pool_body threads_n on_thread_start
    {| pool := {| q_ := mpmc_blocking_queue_ctor q_max_items; threads_ := [] |};
       env := e |}.

(** The empty closure [[] {}]. *)
Definition empty_closure {world} : external world := fun w => (None, w).

(** [thread_pool::thread_pool(size_t q_max_items, size_t threads_n)]. *)
Definition thread_pool_ctor2 {world} (q_max_items threads_n : size_t) (e : world)
    : outcome unit * machine world :=
  thread_pool_ctor q_max_items threads_n empty_closure e.

(** ** Submission *)

(** [thread_pool::post_async_msg_]. *)
Definition post_async_msg_ {world} (new_msg : async_msg)
    (overflow_policy : async_overflow_policy) : M (machine world) unit :=
  if is_block overflow_policy
  then with_q (enqueue new_msg)
  else with_q (enqueue_nowait new_msg).

(** [thread_pool::post_log]; [stack] is the producer's memory, which the views
    of [msg] point into.  The result is the caller's [worker_ptr] after the
    call. *)
Definition post_log {world} (stack : memory) (worker_ptr : async_logger_ptr)
    (msg : log_msg) (overflow_policy : async_overflow_policy)
    : M (machine world) async_logger_ptr :=
  let '(async_m, worker_ptr') :=
    async_msg_ctor3 stack worker_ptr async_msg_type.log msg in
  (post_async_msg_ async_m overflow_policy ;; ret worker_ptr')%pool.

(** [thread_pool::post_flush]. *)
Definition post_flush {world} (worker_ptr : async_logger_ptr)
    (overflow_policy : async_overflow_policy) : M (machine world) async_logger_ptr :=
  let '(async_m, worker_ptr') := async_msg_ctor2 worker_ptr async_msg_type.flush in
  (post_async_msg_ async_m overflow_policy ;; ret worker_ptr')%pool.

(** [thread_pool::overrun_counter] and [thread_pool::queue_size]. *)
Definition overrun_counter {world} (s : machine world) : size_t :=
  overrun_count (q_ (pool s)).

Definition queue_size {world} (s : machine world) : size_t := q_size (q_ (pool s)).

(** ** The drain loop *)

(** [assert(false)]. *)
Definition assert_false `{Environment world} {S} : M S unit :=
  if NDEBUG then ret tt else abort assertion_failure.

(** [thread_pool::process_next_msg_]: the result is whether the thread should
    stay active. *)
Definition process_next_msg_ `{Environment world} : M (machine world) bool :=
  (popped <- with_q (dequeue_for async_msg_default) ;;
   let '(dequeued, incoming_async_msg) := popped in
   if negb dequeued then ret true
   else if msg_type incoming_async_msg =? async_msg_type.log then
     (l <- deref (worker_ptr incoming_async_msg) ;;
      call (backend_sink_it_ l incoming_async_msg) ;;
      ret true)
   else if msg_type incoming_async_msg =? async_msg_type.flush then
     (l <- deref (worker_ptr incoming_async_msg) ;;
      call (backend_flush_ l) ;;
      ret true)
   else if msg_type incoming_async_msg =? async_msg_type.terminate then
     ret false
   else (assert_false ;; ret true))%pool.

(** [thread_pool::worker_loop_], [while (process_next_msg_()) {}], run for at
    most [fuel] iterations: where the worker is after them. *)
Fixpoint worker_loop_ `{Environment world} (fuel : nat) : M (machine world) worker_state :=
  match fuel with
  | O => ret Running
  | S fuel' =>
      (active <- process_next_msg_ ;;
       if active then worker_loop_ fuel' else ret Exited)%pool
  end.

(** The arms of the switch for a log and for a flush envelope [m]: the call
    to the target's dispatch operation, and to its flush operation. *)
Definition dispatch_to_destinations `{Environment world} (m : async_msg)
    : M (machine world) bool :=
  (l <- deref (worker_ptr m) ;; call (backend_sink_it_ l m) ;; ret true)%pool.

Definition flush_all_destinations `{Environment world} (m : async_msg)
    : M (machine world) bool :=
  (l <- deref (worker_ptr m) ;; call (backend_flush_ l) ;; ret true)%pool.

(** ** Threads *)

Definition set_state {world} (st : worker_state) (t : thread world) : thread world :=
  {| on_thread_start := on_thread_start t; state := st; joined := joined t |}.

Definition set_joined {world} (t : thread world) : thread world :=
  {| on_thread_start := on_thread_start t; state := state t; joined := true |}.

(** One atomic step of the closure that thread [i] runs,
    [on_thread_start(); this->thread_pool::worker_loop_();]: the hook, or one
    iteration of the drain loop.  The result is where the thread is then. *)
Definition thread_step `{Environment world} (i : nat) (t : thread world)
    : M (machine world) worker_state :=
  match state t with
  | Starting =>
      (call (on_thread_start t) ;;
       with_threads (alter (set_state Running) i) ;;
       ret Running)%pool
  | Running =>
      (active <- process_next_msg_ ;;
       if active then ret Running
       else (with_threads (alter (set_state Exited) i) ;; ret Exited))%pool
  | Exited => fun s => (Blocks, s)
  end.

(** [t.join()] on thread [i] of [threads_]: it waits until the thread has
    returned.  On a thread that is not joinable it throws a
    [std::system_error] with the code [std::errc::invalid_argument], whose
    [what()] is "Invalid argument". *)
Definition join {world} (i : nat) (t : thread world) : M (machine world) unit :=
  if joined t then throw (std_exception "Invalid argument")
  else
    match state t with
    | Exited => with_threads (alter set_joined i)
    | _ => fun s => (Blocks, s)
    end.

(** ** Destruction *)

(** Where the destructor is: not called, at iteration [i] of its first loop,
    at iteration [i] of its second loop, returned. *)
Inductive dtor_pc := Alive | Posting (i : nat) | Joining (i : nat) | Destroyed.

(** One atomic step of [thread_pool::~thread_pool]. *)
Definition thread_pool_dtor_step {world} (pc : dtor_pc) : M (machine world) dtor_pc :=
  try_catch_std
    (fun s =>
       match pc with
       | Alive => ret (Posting 0) s
       | Posting i =>
           if (i <? length (threads_ (pool s)))%nat
           then (post_async_msg_ (async_msg_ctor1 async_msg_type.terminate) block ;;
                 ret (Posting (S i)))%pool s
           else ret (Joining 0) s
       | Joining i =>
           match threads_ (pool s) !! i with
           | Some t => (join i t ;; ret (Joining (S i)))%pool s
           | None => ret Destroyed s
           end
       | Destroyed => (Blocks, s)
       end)
    Destroyed.

(** ** The program: producers, workers and the destructor, interleaved *)

Record system (world : Type) := {
  mach : machine world;
  dtor : dtor_pc;
  halted : bool
}.
Arguments mach {world} _.
Arguments dtor {world} _.
Arguments halted {world} _.

(** What the scheduler can let happen next. *)
Inductive action :=
| run_thread (i : nat)
| run_destructor
| call_post_log (stack : memory) (worker_ptr : async_logger_ptr) (msg : log_msg)
    (overflow_policy : async_overflow_policy)
| call_post_flush (worker_ptr : async_logger_ptr)
    (overflow_policy : async_overflow_policy).

Inductive origin := by_post_log | by_post_flush | by_destructor.

(** What an observer sees of a step. *)
Inductive event :=
| ev_started (i : nat) (r : outcome worker_state)
| ev_processed (i : nat) (popped : option async_msg) (r : outcome worker_state)
| ev_posted (o : origin) (m : async_msg) (overflow_policy : async_overflow_policy)
    (accepted : bool)
| ev_joined (i : nat)
| ev_destructor (pc : dtor_pc).

Definition dtor_event (pc pc' : dtor_pc) : event :=
  match pc, pc' with
  | Posting _, Posting _ =>
      ev_posted by_destructor (async_msg_ctor1 async_msg_type.terminate) block true
  | Joining i, Joining _ => ev_joined i
  | _, _ => ev_destructor pc'
  end.

Definition thread_event {world} (t : thread world) (q : mpmc_blocking_queue) (i : nat)
    (r : outcome worker_state) : event :=
  match state t with
  | Starting => ev_started i r
  | _ => ev_processed i (head (storage q)) r
  end.

(** The state after a call with outcome [r] that left the memory [m]: an
    exception or a fault that leaves a thread ends the process. *)
Definition after {world A} (s : system world) (r : outcome A) (m : machine world)
    (pc : dtor_pc) : system world :=
  match r with
  | Returns _ => {| mach := m; dtor := pc; halted := false |}
  | _ => {| mach := m; dtor := dtor s; halted := true |}
  end.

(** One step of the program; [None] when the action cannot run now (its
    thread is suspended, has returned or does not exist, or the process has
    ended). *)
Definition step `{Environment world} (a : action) (s : system world)
    : option (event * system world) :=
  if halted s then None
  else
    match a with
    | run_thread i =>
        match threads_ (pool (mach s)) !! i with
        | None => None
        | Some t =>
            match thread_step i t (mach s) with
            | (Blocks, _) => None
            | (r, m) => Some (thread_event t (q_ (pool (mach s))) i r, after s r m (dtor s))
            end
        end
    | run_destructor =>
        match thread_pool_dtor_step (dtor s) (mach s) with
        | (Returns pc', m) =>
            Some (dtor_event (dtor s) pc', after s (Returns pc') m pc')
        | _ => None
        end
    | call_post_log stack worker_ptr msg overflow_policy =>
        match dtor s, post_log stack worker_ptr msg overflow_policy (mach s) with
        | Destroyed, _ => None
        | _, (Returns p, m) =>
            Some (ev_posted by_post_log
                    (fst (async_msg_ctor3 stack worker_ptr async_msg_type.log msg))
                    overflow_policy (negb (full (q_ (pool (mach s))))),
                  after s (Returns p) m (dtor s))
        | _, _ => None
        end
    | call_post_flush worker_ptr overflow_policy =>
        match dtor s, post_flush worker_ptr overflow_policy (mach s) with
        | Destroyed, _ => None
        | _, (Returns p, m) =>
            Some (ev_posted by_post_flush
                    (fst (async_msg_ctor2 worker_ptr async_msg_type.flush))
                    overflow_policy (negb (full (q_ (pool (mach s))))),
                  after s (Returns p) m (dtor s))
        | _, _ => None
        end
    end.

(** A schedule run from [s]: the events seen and the state reached. *)
Fixpoint run `{Environment world} (acts : list action) (s : system world)
    : option (list event * system world) :=
  match acts with
  | [] => Some ([], s)
  | a :: acts' =>
      match step a s with
      | None => None
      | Some (e, s') =>
          match run acts' s' with
          | None => None
          | Some (h, s'') => Some (e :: h, s'')
          end
      end
  end.

(** The program starts when the constructor has returned. *)
Definition boot {world} (q_max_items threads_n : size_t)
    (on_thread_start : external world) (e : world) : option (system world) :=
  match thread_pool_ctor q_max_items threads_n on_thread_start e with
  | (Returns _, m) => Some {| mach := m; dtor := Alive; halted := false |}
  | _ => None
  end.

(** ** What a run has done, read off its events *)

Definition is_terminate (m : async_msg) : bool :=
  msg_type m =? async_msg_type.terminate.

(** The envelopes that entered the queue, in order. *)
Definition enqueued (h : list event) : list async_msg :=
  flat_map (fun e => match e with ev_posted _ m _ true => [m] | _ => [] end) h.

(** The envelopes that submissions dropped, in order. *)
Definition discarded (h : list event) : list async_msg :=
  flat_map (fun e => match e with ev_posted _ m _ false => [m] | _ => [] end) h.

(** The envelopes that workers took out of the queue, in order. *)
Definition dequeued (h : list event) : list async_msg :=
  flat_map (fun e => match e with ev_processed _ (Some m) _ => [m] | _ => [] end) h.

(** The envelopes that worker [i] took out of the queue. *)
Definition received (i : nat) (h : list event) : list async_msg :=
  flat_map (fun e => match e with
                     | ev_processed j (Some m) _ => if (i =? j)%nat then [m] else []
                     | _ => []
                     end) h.

(** How many times worker [i] left its drain loop. *)
Definition exits (i : nat) (h : list event) : nat :=
  length (flat_map (fun e => match e with
                             | ev_processed j _ (Returns Exited) =>
                                 if (i =? j)%nat then [tt] else []
                             | _ => []
                             end) h).

(** What the destructor did: its submissions and its joins. *)
Definition shutdown_trace (h : list event) : list event :=
  flat_map (fun e => match e with
                     | ev_posted by_destructor _ _ _ => [e]
                     | ev_joined _ => [e]
                     | _ => []
                     end) h.

Definition terminate_post : event :=
  ev_posted by_destructor (async_msg_ctor1 async_msg_type.terminate) block true.

(** What the destructor has done when it is at [pc], for [n] threads. *)
Definition shutdown_trace_at (n : nat) (pc : dtor_pc) : list event :=
  match pc with
  | Alive => []
  | Posting i => replicate i terminate_post
  | Joining j => replicate n terminate_post ++ map ev_joined (seq 0 j)
  | Destroyed => replicate n terminate_post ++ map ev_joined (seq 0 n)
  end.

(** An envelope as the three construction sites of the pool make them. *)
Definition well_tagged (m : async_msg) : Prop :=
  msg_type m = async_msg_type.log \/ msg_type m = async_msg_type.flush \/
  m = async_msg_ctor1 async_msg_type.terminate.

(** Whether the destructor has been entered. *)
Definition shutdown_begun {world} (s : system world) : bool :=
  match dtor s with Alive => false | _ => true end.

(** ** The steps of the program, case by case *)

Definition pop_front (q : mpmc_blocking_queue) : mpmc_blocking_queue :=
  {| capacity := capacity q; storage := tail (storage q);
     overrun_count := overrun_count q |}.

Definition count_overrun (q : mpmc_blocking_queue) : mpmc_blocking_queue :=
  {| capacity := capacity q; storage := storage q;
     overrun_count := (overrun_count q + 1)%N |}.

Definition tag_of (o : origin) : async_msg_type.t :=
  match o with
  | by_post_log => async_msg_type.log
  | by_post_flush => async_msg_type.flush
  | by_destructor => async_msg_type.terminate
  end.

(** What each kind of step does to the queue, to [threads_] and to the
    destructor, and what is seen of it. *)
Inductive trans {world} (s : system world) : event -> system world -> Prop :=
| trans_start i t r s' :
    threads_ (pool (mach s)) !! i = Some t -> state t = Starting ->
    q_ (pool (mach s')) = q_ (pool (mach s)) -> dtor s' = dtor s ->
    threads_ (pool (mach s')) =
      match r with
      | Returns _ => alter (set_state Running) i (threads_ (pool (mach s)))
      | _ => threads_ (pool (mach s))
      end ->
    trans s (ev_started i r) s'
| trans_process i t r s' :
    threads_ (pool (mach s)) !! i = Some t -> state t = Running ->
    q_ (pool (mach s')) = pop_front (q_ (pool (mach s))) -> dtor s' = dtor s ->
    (r = Returns Exited <->
     exists m, head (storage (q_ (pool (mach s)))) = Some m /\ is_terminate m = true) ->
    ((forall m, head (storage (q_ (pool (mach s)))) = Some m -> well_tagged m) ->
     r <> Faults assertion_failure) ->
    threads_ (pool (mach s')) =
      match r with
      | Returns Exited => alter (set_state Exited) i (threads_ (pool (mach s)))
      | _ => threads_ (pool (mach s))
      end ->
    trans s (ev_processed i (head (storage (q_ (pool (mach s))))) r) s'
| trans_post o m overflow_policy s' :
    o <> by_destructor -> msg_type m = tag_of o ->
    (full (q_ (pool (mach s))) = true -> overflow_policy = discard) ->
    q_ (pool (mach s')) =
      (if full (q_ (pool (mach s))) then count_overrun (q_ (pool (mach s)))
       else push_back m (q_ (pool (mach s)))) ->
    threads_ (pool (mach s')) = threads_ (pool (mach s)) -> dtor s' = dtor s ->
    trans s (ev_posted o m overflow_policy (negb (full (q_ (pool (mach s)))))) s'
| trans_enter s' :
    dtor s = Alive -> dtor s' = Posting 0 -> mach s' = mach s ->
    trans s (ev_destructor (Posting 0)) s'
| trans_terminate_post i s' :
    dtor s = Posting i -> (i < length (threads_ (pool (mach s))))%nat ->
    full (q_ (pool (mach s))) = false ->
    q_ (pool (mach s')) =
      push_back (async_msg_ctor1 async_msg_type.terminate) (q_ (pool (mach s))) ->
    threads_ (pool (mach s')) = threads_ (pool (mach s)) -> dtor s' = Posting (S i) ->
    trans s terminate_post s'
| trans_posting_done i s' :
    dtor s = Posting i -> ~ (i < length (threads_ (pool (mach s))))%nat ->
    dtor s' = Joining 0 -> mach s' = mach s ->
    trans s (ev_destructor (Joining 0)) s'
| trans_join j t s' :
    dtor s = Joining j -> threads_ (pool (mach s)) !! j = Some t ->
    joined t = false -> state t = Exited ->
    q_ (pool (mach s')) = q_ (pool (mach s)) ->
    threads_ (pool (mach s')) = alter set_joined j (threads_ (pool (mach s))) ->
    dtor s' = Joining (S j) ->
    trans s (ev_joined j) s'
| trans_join_caught j t s' :
    dtor s = Joining j -> threads_ (pool (mach s)) !! j = Some t ->
    joined t = true -> dtor s' = Destroyed -> mach s' = mach s ->
    trans s (ev_destructor Destroyed) s'
| trans_joining_done j s' :
    dtor s = Joining j -> threads_ (pool (mach s)) !! j = None ->
    dtor s' = Destroyed -> mach s' = mach s ->
    trans s (ev_destructor Destroyed) s'.

(** ** What holds of every run *)

Definition exited {world} (t : thread world) : nat :=
  match state t with Exited => 1 | _ => 0 end.

Definition joins_done (n : nat) (pc : dtor_pc) : nat :=
  match pc with Joining j => j | Destroyed => n | _ => 0 end.

Definition posts_done (n : nat) (pc : dtor_pc) : nat :=
  match pc with Alive => 0 | Posting i => i | _ => n end.

Definition count_terminate (l : list async_msg) : nat :=
  length (filter (fun m => is_terminate m = true) l).

Definition exited_total {world} (ts : list (thread world)) : nat :=
  sum_list (map exited ts).

Definition pc_in_range (n : nat) (pc : dtor_pc) : Prop :=
  match pc with
  | Posting i => (i <= n)%nat
  | Joining j => (j <= n)%nat
  | _ => True
  end.


(** A submission under the block policy is never dropped. *)
Definition block_accepted (e : event) : Prop :=
  match e with ev_posted _ _ block false => False | _ => True end.

(** No iteration of the drain loop ends in the [default] arm. *)
Definition no_assertion_failure (e : event) : Prop :=
  match e with ev_processed _ _ (Faults assertion_failure) => False | _ => True end.

(** The events [h] of a run and the state [s] it reached fit together. *)
Record invariant {world} (h : list event) (s : system world) : Prop := {
  inv_conservation :
    enqueued h = dequeued h ++ storage (q_ (pool (mach s)));
  inv_well_tagged : Forall well_tagged (enqueued h);
  inv_overrun :
    overrun_count (q_ (pool (mach s))) = N.of_nat (length (discarded h));
  inv_capacity : (q_size (q_ (pool (mach s))) <= capacity (q_ (pool (mach s))))%N;
  inv_terminates :
    (count_terminate (storage (q_ (pool (mach s)))) +
     exited_total (threads_ (pool (mach s))) =
     posts_done (length (threads_ (pool (mach s)))) (dtor s))%nat;
  inv_block : Forall block_accepted h;
  inv_assert : Forall no_assertion_failure h;
  inv_shutdown :
    shutdown_trace h = shutdown_trace_at (length (threads_ (pool (mach s)))) (dtor s);
  inv_pc : pc_in_range (length (threads_ (pool (mach s)))) (dtor s);
  inv_workers : forall i t,
    threads_ (pool (mach s)) !! i = Some t ->
    length (filter (fun m => is_terminate m = true) (received i h)) = exited t /\
    exits i h = exited t;
  inv_joined : forall i t,
    threads_ (pool (mach s)) !! i = Some t ->
    (joined t = true <-> (i < joins_done (length (threads_ (pool (mach s)))) (dtor s))%nat) /\
    (joined t = true -> state t = Exited)
}.

(** ** When the destructor can run to its end *)

(** The operations of the front-end contain the failures of the
    destinations: they never raise. *)
Definition reliable `{Environment world} : Prop :=
  (forall l m w, fst (backend_sink_it_ l m w) = None) /\
  (forall l w, fst (backend_flush_ l w) = None).

(** An envelope that a worker can process: a terminate envelope, or a log or
    flush envelope with a target. *)
Definition dispatchable (m : async_msg) : Prop :=
  msg_type m = async_msg_type.terminate \/
  ((msg_type m = async_msg_type.log \/ msg_type m = async_msg_type.flush) /\
   worker_ptr m <> None).

(** The process is running, the queue has room for at least one envelope and
    holds only envelopes that can be processed, and the start-up hooks
    return. *)
Definition serviceable {world} (s : system world) : Prop :=
  halted s = false /\
  (0 < capacity (q_ (pool (mach s))))%N /\
  Forall dispatchable (storage (q_ (pool (mach s)))) /\
  Forall (fun t => forall w, fst (on_thread_start t w) = None)
         (threads_ (pool (mach s))).

(** How many iterations of its loops the destructor has before it. *)
Definition steps_left (n : nat) (pc : dtor_pc) : nat :=
  match pc with
  | Alive => 2 * n + 3
  | Posting i => 2 * n + 2 - i
  | Joining j => n + 1 - j
  | Destroyed => 0
  end.

(** A step of the pool itself, not of a producer. *)
Definition of_pool (a : action) : Prop :=
  match a with run_thread _ | run_destructor => True | _ => False end.

(** [s'] can be reached from [s] by steps of the pool alone. *)
Definition reaches `{Environment world} (s s' : system world) : Prop :=
  exists acts h, Forall of_pool acts /\ run acts s = Some (h, s').

(** ** Two destinations to run the program with *)

(** A destination that keeps what it is given: the log lines, and a mark for
    each flush. *)
Definition recording : Environment (list (logger_id * list ascii)) :=
  {| NDEBUG := false;
     backend_sink_it_ := fun l m w => (None, w ++ [(l, buffered_text (base m))]);
     backend_flush_ := fun l w => (None, w ++ [(l, [])]) |}.

(** A destination whose disk is full: every write and every flush raises. *)
Definition disk_full : Environment (list (logger_id * list ascii)) :=
  {| NDEBUG := false;
     backend_sink_it_ := fun l m w => (Some (std_exception "disk full"), w);
     backend_flush_ := fun l w => (Some (std_exception "disk full"), w) |}.

Definition hello : memory := list_ascii_of_string "hello world".

Definition hello_msg : log_msg :=
  {| time := 1; level := 2; source := 0; payload := {| data := 6; size := 5 |} |}.

Definition hello_envelope : async_msg :=
  fst (async_msg_ctor3 hello (Some 7%N) async_msg_type.log hello_msg).

(** A pool of two workers on a queue of one slot, with one record logged
    before it is destroyed. *)
Definition two_workers : system (list (logger_id * list ascii)) :=
  {| mach := snd (thread_pool_ctor 1%N 2%N empty_closure []);
     dtor := Alive; halted := false |}.

Definition shutdown_schedule : list action :=
  [run_thread 0; run_thread 1;
   call_post_log hello (Some 7%N) hello_msg block;
   run_thread 0;
   run_destructor; run_destructor;
   run_thread 1;
   run_destructor;
   run_thread 0;
   run_destructor; run_destructor; run_destructor; run_destructor].

Definition after_shutdown : list event * system (list (logger_id * list ascii)) :=
  default ([], two_workers) (@run _ recording shutdown_schedule two_workers).

(** The same pool when its destructor has submitted the first terminate
    envelope: the queue is full. *)
Definition stopping_full : system (list (logger_id * list ascii)) :=
  snd (default ([], two_workers)
         (@run _ recording [run_destructor; run_destructor] two_workers)).

(** A pool of one worker on a queue of four slots, when its destructor has
    submitted the terminate envelope. *)
Definition one_worker : system (list (logger_id * list ascii)) :=
  {| mach := snd (thread_pool_ctor 4%N 1%N empty_closure []);
     dtor := Alive; halted := false |}.

Definition stopping : system (list (logger_id * list ascii)) :=
  snd (default ([], one_worker)
         (@run _ recording [run_destructor; run_destructor] one_worker)).

(** A running worker with two records waiting. *)
Definition backlog : system (list (logger_id * list ascii)) :=
  {| mach :=
       {| pool :=
            {| q_ := {| capacity := 4%N; storage := [hello_envelope; hello_envelope];
                        overrun_count := 0%N |};
               threads_ := [set_state Running (new_thread empty_closure)] |};
          env := [] |};
     dtor := Alive; halted := false |}.

(** ** The calls a worker makes for a run of envelopes *)

(** A log or flush envelope with a target. *)
Definition deliverable (m : async_msg) : Prop :=
  (msg_type m = async_msg_type.log \/ msg_type m = async_msg_type.flush) /\
  worker_ptr m <> None.

(** The call that the switch of [process_next_msg_] makes for such an
    envelope. *)
Definition deliver_one `{Environment world} (m : async_msg) : external world :=
  fun w =>
    match worker_ptr m with
    | Some l =>
        if msg_type m =? async_msg_type.log
        then backend_sink_it_ l m w
        else backend_flush_ l w
    | None => (None, w)
    end.

(** These calls for the envelopes [ms] in order, up to the first that
    raises. *)
Fixpoint deliver `{Environment world} (ms : list async_msg) : external world :=
  fun w =>
    match ms with
    | [] => (None, w)
    | m :: ms' =>
        match deliver_one m w with
        | (None, w') => deliver ms' w'
        | r => r
        end
    end.

(** A freshly constructed pool whose workers have nothing to do but stop:
    the hooks are the empty closure, the queue holds terminate envelopes only
    and the destinations are as [e] left them. *)
Definition quiet {world} (e : world) (s : system world) : Prop :=
  halted s = false /\ env (mach s) = e /\
  Forall (fun m => msg_type m = async_msg_type.terminate)
         (storage (q_ (pool (mach s)))) /\
  Forall (fun t => on_thread_start t = empty_closure) (threads_ (pool (mach s))).

(** The environment with the same build and a front-end that does nothing. *)
Definition silent `{Environment world} : Environment world :=
  {| NDEBUG := NDEBUG;
     backend_sink_it_ := fun _ _ w => (None, w);
     backend_flush_ := fun _ w => (None, w) |}.

(** ** Moving an envelope *)

(** [async_msg(async_msg &&other)], member by member as the [_MSC_VER] branch
    writes it out: the envelope built, and what is left in [other].  What the
    move of the [log_msg_buffer] base leaves behind is decided in
    details/log_msg_buffer.h, which is not among the sources: it is
    [leftover]. *)
Definition async_msg_move_ctor (leftover : log_msg_buffer) (other : async_msg)
    : async_msg * async_msg :=
  let '(p, emptied) := move_ptr (worker_ptr other) in
  ({| base := base other; msg_type := msg_type other; worker_ptr := p |},
   {| base := leftover; msg_type := msg_type other; worker_ptr := emptied |}).

(** [async_msg &operator=(async_msg &&other)] on [this]: [this] afterwards,
    and what is left in [other].  The pointer that [this] held is
    overwritten. *)
Definition async_msg_move_assign (leftover : log_msg_buffer) (this other : async_msg)
    : async_msg * async_msg :=
  let '(p, emptied) := move_ptr (worker_ptr other) in
  ({| base := base other; msg_type := msg_type other; worker_ptr := p |},
   {| base := leftover; msg_type := msg_type other; worker_ptr := emptied |}).

(** ** The thread wrappers *)

(** What is seen of a [std::thread] object: whether it is joinable, and
    whether its thread of execution has returned. *)
Record std_thread := { joinable : bool; returned : bool }.

(** [t.join()]: on a [t] that is not joinable it throws a
    [std::system_error] with the code [std::errc::invalid_argument], whose
    [what()] is "Invalid argument"; otherwise it waits until the thread has
    returned, and leaves [t] not joinable. *)
Definition std_thread_join : M std_thread unit :=
  fun t =>
    if negb (joinable t) then (Throws (std_exception "Invalid argument"), t)
    else if returned t then (Returns tt, {| joinable := false; returned := true |})
    else (Blocks, t).

(** [std::thread(std::move(t))]: the thread object built, and [t]
    afterwards. *)
Definition std_thread_move (t : std_thread) : std_thread * std_thread :=
  (t, {| joinable := false; returned := returned t |}).

(** How the destruction of an object ends. *)
Inductive ending := destroyed | terminate_called.

(** [std::thread::~thread]: [std::terminate] when the object is joinable. *)
Definition std_thread_dtor (t : std_thread) : ending :=
  if joinable t then terminate_called else destroyed.

(** [thread_guard::~thread_guard], on the thread that the guard refers to. *)
Definition thread_guard_dtor : M std_thread unit :=
  fun t => if joinable t then std_thread_join t else (Returns tt, t).

(** [class scoped_thread]: its data member. *)
Record scoped_thread := { t_ : std_thread }.

(** [scoped_thread::scoped_thread(std::thread t)]. *)
Definition scoped_thread_ctor (t : std_thread) : outcome scoped_thread :=
  let '(member, _) := std_thread_move t in
  if negb (joinable member) then Throws (std_exception "No thread")
  else Returns {| t_ := member |}.

(** [scoped_thread::~scoped_thread]: the body evaluates [t_.joinable()] and
    drops the result; then the member is destroyed. *)
Definition scoped_thread_dtor (g : scoped_thread) : ending :=
  let _ := joinable (t_ g) in
  std_thread_dtor (t_ g).

(** ** What is counted as dropped *)

(** A dropped submission is one of [post_log] or [post_flush] under the
    discard policy. *)
Definition dropped_by_producer (e : event) : Prop :=
  match e with
  | ev_posted o _ overflow_policy false => o <> by_destructor /\ overflow_policy = discard
  | _ => True
  end.

(** ** More states to run the program from *)

(** The build of [recording] with [NDEBUG] defined. *)
Definition recording_ndebug : Environment (list (logger_id * list ascii)) :=
  {| NDEBUG := true;
     backend_sink_it_ := fun l m w => (None, w ++ [(l, buffered_text (base m))]);
     backend_flush_ := fun l w => (None, w ++ [(l, [])]) |}.

Definition flush_envelope : async_msg :=
  fst (async_msg_ctor2 (Some 7%N) async_msg_type.flush).

(** A running worker with a flush request and a record waiting. *)
Definition pending_flush : system (list (logger_id * list ascii)) :=
  {| mach :=
       {| pool :=
            {| q_ := {| capacity := 4%N; storage := [flush_envelope; hello_envelope];
                        overrun_count := 0%N |};
               threads_ := [set_state Running (new_thread empty_closure)] |};
          env := [] |};
     dtor := Alive; halted := false |}.

(** A record and a flush in front of a terminate envelope, and a record
    behind it. *)
Definition busy : machine (list (logger_id * list ascii)) :=
  set_storage
    [hello_envelope; flush_envelope; async_msg_ctor1 async_msg_type.terminate;
     hello_envelope]
    (mach one_worker).

(** An envelope with a tag that is none of the enumerators. *)
Definition stray : machine (list (logger_id * list ascii)) :=
  set_storage
    [{| base := log_msg_buffer_default; msg_type := 7; worker_ptr := Some 7%N |}]
    (mach one_worker).

(** Two records submitted under the discard policy to the queue of one
    slot. *)
Definition overflowing : list event * system (list (logger_id * list ascii)) :=
  default ([], two_workers)
    (@run _ recording
       [call_post_log hello (Some 7%N) hello_msg discard;
        call_post_log hello (Some 7%N) hello_msg discard]
       two_workers).

(** The run of [shutdown_schedule] before the destructor is called, and when
    it starts to join. *)
Definition before_shutdown : list event * system (list (logger_id * list ascii)) :=
  default ([], two_workers)
    (@run _ recording (take 4 shutdown_schedule) two_workers).

Definition joining : list event * system (list (logger_id * list ascii)) :=
  default ([], two_workers)
    (@run _ recording (take 10 shutdown_schedule) two_workers).

(** A pool of one worker whose start-up hook throws. *)
Definition failing_start : system (list (logger_id * list ascii)) :=
  {| mach := snd (thread_pool_ctor 4%N 1%N
                    (fun w => (Some (std_exception "no hook"), w)) []);
     dtor := Alive; halted := false |}.

(** ** The special member functions of the envelope *)




(** ** What a run does to the destinations *)






(** ** Steps that end the process *)

(** A step of a thread that ends with an exception or a fault: it leaves the
    thread, and the process is over. *)
Definition ends_process (e : event) : bool :=
  match e with
  | ev_started _ (Returns _) | ev_processed _ _ (Returns _) => false
  | ev_started _ _ | ev_processed _ _ _ => true
  | _ => false
  end.

(** A record submitted to the pool of two workers when the disk is full, and
    taken by the first worker. *)
Definition failed_dispatch : list event * system (list (logger_id * list ascii)) :=
  default ([], two_workers)
    (@run _ disk_full
       [run_thread 0; call_post_log hello (Some 7%N) hello_msg block; run_thread 0]
       two_workers).

(** ** A destination that tells its calls apart *)

(** What a call left in the journal: a record written, or a flush. *)
Inductive journal_entry :=
| written (l : logger_id) (text : list ascii)
| flushed (l : logger_id).

Definition journal : Environment (list journal_entry) :=
  {| NDEBUG := false;
     backend_sink_it_ := fun l m w => (None, w ++ [written l (buffered_text (base m))]);
     backend_flush_ := fun l w => (None, w ++ [flushed l]) |}.

(** A pool with a flush request and a record of logger 7 waiting, and room
    for more. *)
Definition queued : machine (list journal_entry) :=
  {| pool :=
       {| q_ := {| capacity := 4%N; storage := [flush_envelope; hello_envelope];
                   overrun_count := 0%N |};
          threads_ := [set_state Running (new_thread empty_closure)] |};
     env := [] |}.

(** * Properties *)

(** ** Construction *)

Lemma emplace_threads {world} (t : thread world) (n : N) (s : machine world) :
  N.iter n (fun rest => with_threads (fun ts => ts ++ [t]) ;; rest)%pool (ret tt) s =
  (Returns tt,
   {| pool := {| q_ := q_ (pool s);
                 threads_ := threads_ (pool s) ++ replicate (N.to_nat n) t |};
      env := env s |}).
Proof.
  revert s. induction n as [|n IH] using N.peano_ind; intros s.
  - destruct s as [[q ts] e]. simpl. unfold ret. by rewrite app_nil_r.
  - rewrite N.iter_succ, N2Nat.inj_succ. unfold bind at 1. simpl.
    rewrite IH. simpl. by rewrite <- app_assoc.
Qed.

(** C1. A pool cannot be constructed with [threads_n] equal to 0 or above
    1000: the constructor throws the configuration error while [threads_] is
    still empty, the queue as it was initialised and the destinations
    untouched.  For [threads_n] from 1 to 1000 it returns with the queue empty
    and the destinations untouched, and [threads_] holds exactly [threads_n]
    threads: each of them has been created with the given hook in its
    closure, has not run yet and has not been joined. *)
Theorem thread_pool_ctor_threads_n {world} (q_max_items threads_n : size_t)
    (on_thread_start : external world) (e : world) :
  ((threads_n = 0 \/ 1000 < threads_n)%N ->
   thread_pool_ctor q_max_items threads_n on_thread_start e =
   (Throws (spdlog_ex invalid_threads_n),
    {| pool := {| q_ := mpmc_blocking_queue_ctor q_max_items; threads_ := [] |};
       env := e |})) /\
  ((1 <= threads_n <= 1000)%N ->
   let built := thread_pool_ctor q_max_items threads_n on_thread_start e in
   fst built = Returns tt /\
   q_ (pool (snd built)) =
     {| capacity := q_max_items; storage := []; overrun_count := 0 |} /\
   env (snd built) = e /\
   length (threads_ (pool (snd built))) = N.to_nat threads_n /\
   (forall i, (i < N.to_nat threads_n)%nat ->
      threads_ (pool (snd built)) !! i =
      Some {| on_thread_start := on_thread_start; state := Starting; joined := false |}) /\
   (forall i, (N.to_nat threads_n <= i)%nat -> threads_ (pool (snd built)) !! i = None)).
Proof.
  split.
  - intros Hbad. unfold thread_pool_ctor, thread_pool_body.
    assert ((threads_n =? 0)%N || (1000 <? threads_n)%N = true) as ->; [|done].
    apply orb_true_iff. destruct Hbad as [->|Hbig]; [by left|right].
    by apply N.ltb_lt.
  - intros [Hlo Hhi] built.
    assert (built =
            (Returns tt,
             {| pool := {| q_ := mpmc_blocking_queue_ctor q_max_items;
                           threads_ := replicate (N.to_nat threads_n)
                                         (new_thread on_thread_start) |};
                env := e |})) as ->.
    { unfold built, thread_pool_ctor, thread_pool_body.
      assert ((threads_n =? 0)%N || (1000 <? threads_n)%N = false) as ->.
      { apply orb_false_iff. split; [apply N.eqb_neq|apply N.ltb_ge]; lia. }
      unfold bind at 1. simpl. by rewrite emplace_threads. }
    cbn [fst snd pool q_ threads_ env]. split_and!; try done.
    + by rewrite length_replicate.
    + intros i Hi. by apply lookup_replicate_2.
    + intros i Hi. apply lookup_ge_None_2. by rewrite length_replicate.
Qed.

Lemma thread_pool_ctor_threads_n_witness :
  thread_pool_ctor 8%N 0%N empty_closure tt =
  (Throws (spdlog_ex invalid_threads_n),
   {| pool := {| q_ := mpmc_blocking_queue_ctor 8%N; threads_ := [] |}; env := tt |}) /\
  fst (thread_pool_ctor 8%N 3%N empty_closure tt) = Returns tt /\
  length (threads_ (pool (snd (thread_pool_ctor 8%N 3%N empty_closure tt)))) = 3%nat /\
  threads_ (pool (snd (thread_pool_ctor 8%N 3%N empty_closure tt))) !! 2%nat =
    Some {| on_thread_start := empty_closure; state := Starting; joined := false |} /\
  threads_ (pool (snd (thread_pool_ctor 8%N 3%N empty_closure tt))) !! 3%nat = None.
Proof.
  split.
  - apply (proj1 (thread_pool_ctor_threads_n 8%N 0%N empty_closure tt)). left. reflexivity.
  - destruct (proj2 (thread_pool_ctor_threads_n 8%N 3%N empty_closure tt))
      as (Hr & _ & _ & Hlen & Hin & Hout); [lia|].
    split; [exact Hr|]. split; [exact Hlen|].
    split; [apply Hin; vm_compute; lia|apply Hout; vm_compute; lia].
Defined.

(** ** Submission *)

(** C4. [post_async_msg_] has one arm for each of the two policies.  Under the
    block policy it is the blocking enqueue: the producer is suspended while
    the queue is full, and otherwise the envelope is put at the tail, nothing
    being dropped or counted.  Under the discard policy it is the non-blocking
    enqueue: it always returns; when the queue is full the envelope is
    discarded and the overrun counter goes up by one, and otherwise the
    envelope is put at the tail. *)
Theorem post_async_msg_policies {world} (new_msg : async_msg)
    (overflow_policy : async_overflow_policy) (s : machine world) :
  (overflow_policy = block \/ overflow_policy = discard) /\
  post_async_msg_ new_msg block s = with_q (enqueue new_msg) s /\
  post_async_msg_ new_msg discard s = with_q (enqueue_nowait new_msg) s /\
  post_async_msg_ new_msg overflow_policy s =
  match overflow_policy, full (q_ (pool s)) with
  | block, true => (Blocks, s)
  | discard, true =>
      (Returns tt,
       {| pool := {| q_ := {| capacity := capacity (q_ (pool s));
                              storage := storage (q_ (pool s));
                              overrun_count := (overrun_count (q_ (pool s)) + 1)%N |};
                     threads_ := threads_ (pool s) |};
          env := env s |})
  | _, false =>
      (Returns tt,
       {| pool := {| q_ := {| capacity := capacity (q_ (pool s));
                              storage := storage (q_ (pool s)) ++ [new_msg];
                              overrun_count := overrun_count (q_ (pool s)) |};
                     threads_ := threads_ (pool s) |};
          env := env s |})
  end.
Proof.
  split; [destruct overflow_policy; auto|].
  split; [reflexivity|]. split; [reflexivity|].
  destruct s as [[q ts] e].
  unfold post_async_msg_, with_q, enqueue, enqueue_nowait, push_back. simpl.
  destruct overflow_policy; simpl; destruct (full q); reflexivity.
Qed.

(** ** The drain loop *)

Section Drain.
Context `{Environment world}.

Lemma process_next_msg_empty (s : machine world) :
  storage (q_ (pool s)) = [] -> process_next_msg_ s = (Returns true, s).
Proof.
  intros Hq. destruct s as [[q ts] e]. simpl in Hq.
  unfold process_next_msg_, bind, with_q, dequeue_for. simpl. by rewrite Hq.
Qed.

Lemma process_next_msg_log (s : machine world) m rest :
  storage (q_ (pool s)) = m :: rest -> msg_type m = async_msg_type.log ->
  process_next_msg_ s = dispatch_to_destinations m (set_storage rest s).
Proof.
  intros Hq Ht. unfold process_next_msg_, dispatch_to_destinations.
  unfold bind at 1. unfold with_q, dequeue_for. rewrite Hq. simpl. by rewrite Ht.
Qed.

Lemma process_next_msg_flush (s : machine world) m rest :
  storage (q_ (pool s)) = m :: rest -> msg_type m = async_msg_type.flush ->
  process_next_msg_ s = flush_all_destinations m (set_storage rest s).
Proof.
  intros Hq Ht. unfold process_next_msg_, flush_all_destinations.
  unfold bind at 1. unfold with_q, dequeue_for. rewrite Hq. simpl. by rewrite Ht.
Qed.

Lemma process_next_msg_terminate (s : machine world) m rest :
  storage (q_ (pool s)) = m :: rest -> msg_type m = async_msg_type.terminate ->
  process_next_msg_ s = (Returns false, set_storage rest s).
Proof.
  intros Hq Ht. unfold process_next_msg_.
  unfold bind at 1. unfold with_q, dequeue_for. rewrite Hq. simpl. by rewrite Ht.
Qed.

Lemma well_tagged_msg_type m :
  well_tagged m ->
  msg_type m = async_msg_type.log \/ msg_type m = async_msg_type.flush \/
  msg_type m = async_msg_type.terminate.
Proof. intros [?|[?| ->]]; auto. Qed.

Lemma dispatch_returns m l e' (s : machine world) :
  worker_ptr m = Some l -> backend_sink_it_ l m (env s) = (None, e') ->
  dispatch_to_destinations m s = (Returns true, set_env e' s).
Proof.
  intros Hp Hb. unfold dispatch_to_destinations, bind, call, deref.
  rewrite Hp. simpl. by rewrite Hb.
Qed.

Lemma flush_returns m l e' (s : machine world) :
  worker_ptr m = Some l -> backend_flush_ l (env s) = (None, e') ->
  flush_all_destinations m s = (Returns true, set_env e' s).
Proof.
  intros Hp Hb. unfold flush_all_destinations, bind, call, deref.
  rewrite Hp. simpl. by rewrite Hb.
Qed.

(** C3, as the code has it.  One iteration of the drain loop is one call of
    [process_next_msg_], which takes at most one envelope out of the queue.
    On a time-out it returns true and changes nothing: the worker remains
    running.  On a log envelope it calls the target's [backend_sink_it_] with
    the envelope, and on a flush envelope the target's [backend_flush_]; when
    that call returns, the iteration returns true and the worker remains
    running; when it raises, the exception ends the iteration and the worker
    leaves its loop with it; when the envelope has no target, the null pointer
    is dereferenced.  On a terminate envelope it returns false, and the loop
    ends with the thread exited.  For the envelopes that the pool puts in its
    queue there is no other case. *)
Theorem process_next_msg_behaviours (s : machine world) (fuel : nat) :
  Forall well_tagged (storage (q_ (pool s))) ->
  worker_loop_ (S fuel) =
    (active <- process_next_msg_ ;; if active then worker_loop_ fuel else ret Exited)%pool /\
  ((storage (q_ (pool s)) = [] /\
    process_next_msg_ s = (Returns true, s) /\
    worker_loop_ 1 s = (Returns Running, s)) \/
   (exists m rest,
      storage (q_ (pool s)) = m :: rest /\ msg_type m = async_msg_type.log /\
      match worker_ptr m with
      | Some l =>
          match backend_sink_it_ l m (env s) with
          | (None, e') =>
              process_next_msg_ s = (Returns true, set_env e' (set_storage rest s)) /\
              worker_loop_ 1 s = (Returns Running, set_env e' (set_storage rest s))
          | (Some x, e') =>
              process_next_msg_ s = (Throws x, set_env e' (set_storage rest s)) /\
              worker_loop_ 1 s = (Throws x, set_env e' (set_storage rest s))
          end
      | None =>
          process_next_msg_ s = (Faults null_dereference, set_storage rest s) /\
          worker_loop_ 1 s = (Faults null_dereference, set_storage rest s)
      end) \/
   (exists m rest,
      storage (q_ (pool s)) = m :: rest /\ msg_type m = async_msg_type.flush /\
      match worker_ptr m with
      | Some l =>
          match backend_flush_ l (env s) with
          | (None, e') =>
              process_next_msg_ s = (Returns true, set_env e' (set_storage rest s)) /\
              worker_loop_ 1 s = (Returns Running, set_env e' (set_storage rest s))
          | (Some x, e') =>
              process_next_msg_ s = (Throws x, set_env e' (set_storage rest s)) /\
              worker_loop_ 1 s = (Throws x, set_env e' (set_storage rest s))
          end
      | None =>
          process_next_msg_ s = (Faults null_dereference, set_storage rest s) /\
          worker_loop_ 1 s = (Faults null_dereference, set_storage rest s)
      end) \/
   (exists m rest,
      storage (q_ (pool s)) = m :: rest /\ msg_type m = async_msg_type.terminate /\
      process_next_msg_ s = (Returns false, set_storage rest s) /\
      worker_loop_ 1 s = (Returns Exited, set_storage rest s) /\
      worker_loop_ (S fuel) s = (Returns Exited, set_storage rest s))).
Proof.
  intros Hwt. split; [reflexivity|].
  assert (forall n r s', process_next_msg_ s = (r, s') ->
            worker_loop_ (S n) s =
            match r with
            | Returns true => worker_loop_ n s'
            | Returns false => (Returns Exited, s')
            | Throws x => (Throws x, s')
            | Blocks => (Blocks, s')
            | Faults f => (Faults f, s')
            end) as Hloop.
  { intros n r s' Hp. simpl. unfold bind at 1. rewrite Hp. by destruct r as [[]| | |]. }
  destruct (storage (q_ (pool s))) as [|m rest] eqn:Hq.
  { left. pose proof (process_next_msg_empty s Hq) as Hp.
    split; [done|]. split; [done|]. by rewrite (Hloop 0%nat _ _ Hp). }
  right. apply Forall_cons in Hwt as [Hm _].
  destruct (well_tagged_msg_type m Hm) as [Ht|[Ht|Ht]].
  - left. exists m, rest. split; [done|]. split; [done|].
    pose proof (process_next_msg_log s m rest Hq Ht) as Hp.
    unfold dispatch_to_destinations, bind, deref, call, abort, ret in Hp.
    destruct (worker_ptr m) as [l|]; simpl in Hp.
    + destruct (backend_sink_it_ l m (env s)) as [[x|] e']; simpl in Hp;
        (split; [exact Hp|]); by rewrite (Hloop 0%nat _ _ Hp).
    + split; [exact Hp|]. by rewrite (Hloop 0%nat _ _ Hp).
  - right; left. exists m, rest. split; [done|]. split; [done|].
    pose proof (process_next_msg_flush s m rest Hq Ht) as Hp.
    unfold flush_all_destinations, bind, deref, call, abort, ret in Hp.
    destruct (worker_ptr m) as [l|]; simpl in Hp.
    + destruct (backend_flush_ l (env s)) as [[x|] e']; simpl in Hp;
        (split; [exact Hp|]); by rewrite (Hloop 0%nat _ _ Hp).
    + split; [exact Hp|]. by rewrite (Hloop 0%nat _ _ Hp).
  - right; right. exists m, rest. split; [done|]. split; [done|].
    pose proof (process_next_msg_terminate s m rest Hq Ht) as Hp.
    split; [exact Hp|]. by rewrite (Hloop 0%nat _ _ Hp), (Hloop fuel _ _ Hp).
Qed.

End Drain.


(** ** The steps of the program *)

Lemma is_terminate_log m : msg_type m = async_msg_type.log -> is_terminate m = false.
Proof. unfold is_terminate. by intros ->. Qed.

Lemma is_terminate_flush m : msg_type m = async_msg_type.flush -> is_terminate m = false.
Proof. unfold is_terminate. by intros ->. Qed.

Ltac not_terminate Hlem :=
  repeat split; try done;
  try (let Hh := fresh in let Hm := fresh in
       intros (? & Hh & Hm); injection Hh as <-; by rewrite Hlem in Hm);
  try (intros _ ?; discriminate).

Lemma process_next_msg_effect `{Environment world} (s : machine world) r s' :
  process_next_msg_ s = (r, s') ->
  q_ (pool s') = pop_front (q_ (pool s)) /\
  threads_ (pool s') = threads_ (pool s) /\
  (r = Returns false <->
   exists m, head (storage (q_ (pool s))) = Some m /\ is_terminate m = true) /\
  ((forall m, head (storage (q_ (pool s))) = Some m -> well_tagged m) ->
   r <> Faults assertion_failure).
Proof.
  destruct (storage (q_ (pool s))) as [|m rest] eqn:Hq.
  { rewrite (process_next_msg_empty s Hq). intros [= <- <-].
    destruct s as [[[c st o] ts] e]. simpl in *. subst st.
    repeat split; try done. intros (m & ? & _). done. }
  destruct (Z.eq_dec (msg_type m) async_msg_type.log) as [Ht|Hnl].
  { rewrite (process_next_msg_log s m rest Hq Ht).
    unfold dispatch_to_destinations, bind, deref, call, abort, ret, set_storage, pop_front.
    rewrite Hq. simpl.
    destruct (worker_ptr m) as [l|]; simpl.
    - destruct (backend_sink_it_ l m (env s)) as [r0 e']; destruct r0; simpl; intros [= <- <-]; simpl; not_terminate (is_terminate_log m Ht).
    - intros [= <- <-]; simpl; not_terminate (is_terminate_log m Ht). }
  destruct (Z.eq_dec (msg_type m) async_msg_type.flush) as [Ht|Hnf].
  { rewrite (process_next_msg_flush s m rest Hq Ht).
    unfold flush_all_destinations, bind, deref, call, abort, ret, set_storage, pop_front.
    rewrite Hq. simpl.
    destruct (worker_ptr m) as [l|]; simpl.
    - destruct (backend_flush_ l (env s)) as [r0 e']; destruct r0; simpl; intros [= <- <-]; simpl; not_terminate (is_terminate_flush m Ht).
    - intros [= <- <-]; simpl; not_terminate (is_terminate_flush m Ht). }
  destruct (Z.eq_dec (msg_type m) async_msg_type.terminate) as [Ht|Hnt].
  { rewrite (process_next_msg_terminate s m rest Hq Ht).
    intros [= <- <-]. unfold set_storage, pop_front. rewrite Hq. simpl.
    repeat split; try done. intros _. exists m. split; [done|].
    unfold is_terminate. by rewrite Ht. }
  unfold process_next_msg_. unfold bind at 1. unfold with_q, dequeue_for. rewrite Hq. simpl.
  apply Z.eqb_neq in Hnl as Hnl', Hnf as Hnf', Hnt as Hnt'.
  rewrite Hnl', Hnf', Hnt'. unfold bind, assert_false, ret, abort, pop_front. rewrite Hq.
  destruct NDEBUG; intros [= <- <-]; simpl; repeat split; try done.
  - intros (m' & [= <-] & Hm'). unfold is_terminate in Hm'. congruence.
  - intros (m' & [= <-] & Hm'). unfold is_terminate in Hm'. congruence.
  - intros Hwt _. destruct (well_tagged_msg_type m (Hwt m eq_refl)) as [?|[?|?]]; done.
Qed.

Lemma post_async_msg_unfold {world} new_msg overflow_policy (s : machine world) :
  post_async_msg_ new_msg overflow_policy s =
  if is_block overflow_policy && full (q_ (pool s)) then (Blocks, s)
  else (Returns tt,
        {| pool := {| q_ := if full (q_ (pool s)) then count_overrun (q_ (pool s))
                            else push_back new_msg (q_ (pool s));
                      threads_ := threads_ (pool s) |};
           env := env s |}).
Proof.
  destruct s as [[q ts] e].
  unfold post_async_msg_, with_q, enqueue, enqueue_nowait. simpl.
  destruct overflow_policy; simpl; destruct (full q); reflexivity.
Qed.

Lemma step_trans `{Environment world} a (s : system world) e s' :
  step a s = Some (e, s') -> trans s e s'.
Proof.
  unfold step. destruct (halted s) eqn:Hh; [done|].
  destruct a as [i| |stack p msg pol|p pol].
  - destruct (threads_ (pool (mach s)) !! i) as [t|] eqn:Hi; [|done].
    unfold thread_step, thread_event. destruct (state t) eqn:Hst; [| |done].
    + unfold bind, call, with_threads, ret. simpl.
      destruct (on_thread_start t (env (mach s))) as [[x|] e']; simpl;
        intros [= <- <-]; by eapply trans_start.
    + unfold bind at 1.
      destruct (process_next_msg_ (mach s)) as [r m'] eqn:Hp.
      apply process_next_msg_effect in Hp as (Hq & Hts & Hterm & Hassert).
      destruct r as [[]| | |]; simpl; try done; intros [= <- <-];
        eapply trans_process; eauto; simpl; try done.
      * split; [intros [=]|]. intros Hm. apply Hterm in Hm. discriminate Hm.
      * split; [|done]. intros _. by apply Hterm.
      * by rewrite Hts.
      * split; [intros [=]|]. intros Hm. apply Hterm in Hm. discriminate Hm.
      * split; [intros [=]|]. intros Hm. apply Hterm in Hm. discriminate Hm.
      * intros Hw [= ->]. by apply (Hassert Hw).
  - unfold thread_pool_dtor_step, try_catch_std. destruct (dtor s) eqn:Hpc; simpl.
    + intros [= <- <-]. by apply trans_enter.
    + destruct (i <? length (threads_ (pool (mach s))))%nat eqn:Hlt.
      * unfold bind. rewrite post_async_msg_unfold. simpl.
        destruct (full (q_ (pool (mach s)))) eqn:Hf; simpl; [done|].
        intros [= <- <-]. apply Nat.ltb_lt in Hlt.
        eapply trans_terminate_post; eauto; simpl; try done.
      * intros [= <- <-]. apply Nat.ltb_ge in Hlt.
        eapply trans_posting_done; eauto. lia.
    + destruct (threads_ (pool (mach s)) !! i) as [t|] eqn:Hi.
      * unfold bind, join, throw, with_threads.
        destruct (joined t) eqn:Hj; simpl.
        { intros [= <- <-]. by eapply trans_join_caught. }
        destruct (state t) eqn:Hst; simpl; try done.
        intros [= <- <-]. by eapply trans_join.
      * intros [= <- <-]. by eapply trans_joining_done.
    + done.
  - unfold post_log, async_msg_ctor3, move_ptr, bind. simpl.
    rewrite post_async_msg_unfold.
    destruct (is_block pol && full (q_ (pool (mach s)))) eqn:Hb;
      destruct (dtor s) eqn:Hpc; simpl; try done; intros [= <- <-];
      (eapply (trans_post s by_post_log); simpl; try done);
      intros Hf; rewrite Hf in Hb; by destruct pol.
  - unfold post_flush, async_msg_ctor2, move_ptr, bind. simpl.
    rewrite post_async_msg_unfold.
    destruct (is_block pol && full (q_ (pool (mach s)))) eqn:Hb;
      destruct (dtor s) eqn:Hpc; simpl; try done; intros [= <- <-];
      (eapply (trans_post s by_post_flush); simpl; try done);
      intros Hf; rewrite Hf in Hb; by destruct pol.
Qed.

(** ** Every step keeps the invariant *)

Ltac trans_cases Ht :=
  destruct Ht as
    [ i t r s' Hi Hst Hq Hd Hts
    | i t r s' Hi Hst Hq Hd Hterm Hassert Hts
    | o m pol s' Ho Htag Hfull Hq Hts Hd
    | s' Hpc Hd Hm
    | i s' Hpc Hlt Hf Hq Hts Hd
    | i s' Hpc Hge Hd Hm
    | j t s' Hpc Hj Hjn Hst Hq Hts Hd
    | j t s' Hpc Hj Hjn Hd Hm
    | j s' Hpc Hj Hd Hm ].

Ltac hist_snoc :=
  unfold enqueued, dequeued, discarded, received, exits, shutdown_trace, terminate_post;
  rewrite ?flat_map_app; simpl; rewrite ?app_nil_r.

Section Invariants.
Context {world : Type}.
Implicit Types (s : system world) (h : list event) (ts : list (thread world)).

Lemma trans_conservation s e s' h :
  enqueued h = dequeued h ++ storage (q_ (pool (mach s))) ->
  trans s e s' ->
  enqueued (h ++ [e]) = dequeued (h ++ [e]) ++ storage (q_ (pool (mach s'))).
Proof.
  intros Hc Ht. trans_cases Ht; try rewrite Hm; try rewrite Hq; hist_snoc; try done.
  - fold (enqueued h) (dequeued h). rewrite Hc.
    destruct (storage (q_ (pool (mach s)))); simpl; [by rewrite !app_nil_r|].
    by rewrite <- app_assoc.
  - fold (enqueued h) (dequeued h).
    destruct (full (q_ (pool (mach s)))); simpl; rewrite ?app_nil_r; [done|].
    by rewrite Hc, app_assoc.
  - fold (enqueued h) (dequeued h). by rewrite Hc, app_assoc.
Qed.

Lemma trans_well_tagged s e s' h :
  Forall well_tagged (enqueued h) -> trans s e s' ->
  Forall well_tagged (enqueued (h ++ [e])).
Proof.
  intros Hw Ht. trans_cases Ht; hist_snoc; try done.
  - fold (enqueued h). destruct (full (q_ (pool (mach s)))); simpl;
      rewrite ?app_nil_r; [done|].
    apply Forall_app. split; [done|]. apply Forall_singleton.
    destruct o; [by left|by right; left|done].
  - fold (enqueued h). apply Forall_app. split; [done|]. apply Forall_singleton.
    by right; right.
Qed.

Lemma trans_overrun s e s' h :
  overrun_count (q_ (pool (mach s))) = N.of_nat (length (discarded h)) ->
  trans s e s' ->
  overrun_count (q_ (pool (mach s'))) = N.of_nat (length (discarded (h ++ [e]))).
Proof.
  intros Ho' Ht. trans_cases Ht; try rewrite Hm; try rewrite Hq; hist_snoc; try done.
  fold (discarded h).
  destruct (full (q_ (pool (mach s)))); simpl; rewrite ?app_nil_r; [|done].
  rewrite length_app. simpl. lia.
Qed.

Lemma trans_block s e s' :
  trans s e s' -> block_accepted e.
Proof.
  intros Ht. trans_cases Ht; try done. simpl.
  destruct pol; [|done].
  destruct (full (q_ (pool (mach s)))); [|done]. by specialize (Hfull eq_refl).
Qed.

Lemma trans_assert s e s' h :
  enqueued h = dequeued h ++ storage (q_ (pool (mach s))) ->
  Forall well_tagged (enqueued h) ->
  trans s e s' -> no_assertion_failure e.
Proof.
  intros Hc Hw Ht. trans_cases Ht; try done. simpl.
  destruct r as [| | |[]]; try done. apply Hassert; [|done].
  intros m Hm. rewrite Hc in Hw. apply Forall_app in Hw as [_ Hw].
  destruct (storage (q_ (pool (mach s)))) as [|m' rest]; [done|].
  injection Hm as <-. by apply Forall_cons in Hw as [? _].
Qed.


Lemma lookup_alter_thread (f : thread world -> thread world) ts i j t' :
  alter f i ts !! j = Some t' ->
  (i = j /\ exists t, ts !! j = Some t /\ t' = f t) \/ (i <> j /\ ts !! j = Some t').
Proof.
  rewrite list_lookup_alter. case_decide as Hij.
  - subst j. destruct (ts !! i) as [t|]; [|done]. intros [= <-]. left. eauto.
  - intros ?. by right.
Qed.

Lemma trans_length s e s' :
  trans s e s' ->
  length (threads_ (pool (mach s'))) = length (threads_ (pool (mach s))).
Proof.
  intros Ht. trans_cases Ht; try rewrite Hm; try rewrite Hts; try done.
  - destruct r; by rewrite ?length_alter.
  - destruct r as [[]| | |]; by rewrite ?length_alter.
  - by rewrite length_alter.
Qed.

Lemma exited_total_alter (f : thread world -> thread world) ts i t :
  ts !! i = Some t ->
  (exited_total (alter f i ts) + exited t = exited_total ts + exited (f t))%nat.
Proof.
  unfold exited_total. revert i. induction ts as [|t0 ts IH]; intros [|i]; simpl; try done.
  - intros [= ->]. lia.
  - intros Hi. specialize (IH i Hi). change (list_alter f i ts) with (alter f i ts). lia.
Qed.

Lemma trans_capacity s e s' :
  (q_size (q_ (pool (mach s))) <= capacity (q_ (pool (mach s))))%N ->
  trans s e s' ->
  (q_size (q_ (pool (mach s'))) <= capacity (q_ (pool (mach s'))))%N.
Proof.
  intros Hcap Ht. unfold q_size in *.
  trans_cases Ht; try rewrite Hm; try rewrite Hq; simpl; try done.
  - destruct (storage (q_ (pool (mach s)))); simpl in *; lia.
  - unfold full, q_size in *.
    destruct (capacity (q_ (pool (mach s))) <=? _)%N eqn:Hfl; simpl; [done|].
    apply N.leb_gt in Hfl. rewrite length_app. simpl. lia.
  - unfold full, q_size in Hf. apply N.leb_gt in Hf. rewrite length_app. simpl. lia.
Qed.

Lemma count_terminate_app l1 l2 :
  count_terminate (l1 ++ l2) = (count_terminate l1 + count_terminate l2)%nat.
Proof. unfold count_terminate. by rewrite filter_app, length_app. Qed.

Lemma count_terminate_cons m l :
  count_terminate (m :: l) =
  ((if is_terminate m then 1 else 0) + count_terminate l)%nat.
Proof.
  unfold count_terminate. destruct (is_terminate m) eqn:Hm.
  - by rewrite filter_cons_True.
  - rewrite filter_cons_False; [done|]. by rewrite Hm.
Qed.

Lemma trans_terminates s e s' :
  pc_in_range (length (threads_ (pool (mach s)))) (dtor s) ->
  (count_terminate (storage (q_ (pool (mach s)))) +
   exited_total (threads_ (pool (mach s))) =
   posts_done (length (threads_ (pool (mach s)))) (dtor s))%nat ->
  trans s e s' ->
  (count_terminate (storage (q_ (pool (mach s')))) +
   exited_total (threads_ (pool (mach s'))) =
   posts_done (length (threads_ (pool (mach s')))) (dtor s'))%nat.
Proof.
  intros Hpr Htm Ht. rewrite (trans_length s e s' Ht).
  trans_cases Ht; try rewrite Hm; try rewrite Hq; try rewrite Hd;
    try rewrite Hpc in *; simpl in *; try done.
  - rewrite Hts. destruct r; try done.
    pose proof (exited_total_alter (set_state Running) _ _ _ Hi) as Ha.
    unfold exited in Ha. simpl in Ha. rewrite Hst in Ha. lia.
  - rewrite Hts.
    assert (r = Returns Exited \/ r <> Returns Exited) as [->|Hr'].
    { destruct r as [[]| | |]; (by left) || (by right). }
    + destruct (proj1 Hterm eq_refl) as (m & Hh & Hm).
      destruct (storage (q_ (pool (mach s)))) as [|m0 rest]; [done|].
      injection Hh as ->. rewrite count_terminate_cons, Hm in Htm. simpl.
      pose proof (exited_total_alter (set_state Exited) _ _ _ Hi) as Ha.
      unfold exited in Ha. simpl in Ha. rewrite Hst in Ha. lia.
    + assert (match r with
              | Returns Exited => alter (set_state Exited) i (threads_ (pool (mach s)))
              | _ => threads_ (pool (mach s))
              end = threads_ (pool (mach s))) as ->.
      { by destruct r as [[]| | |]. }
      destruct (storage (q_ (pool (mach s)))) as [|m0 rest]; [done|]. simpl.
      rewrite count_terminate_cons in Htm.
      destruct (is_terminate m0) eqn:Hm; [|done].
      exfalso. apply Hr', Hterm. eauto.
  - rewrite Hts. destruct (full (q_ (pool (mach s)))); simpl; [done|].
    rewrite count_terminate_app, count_terminate_cons.
    assert (is_terminate m = false) as ->.
    { unfold is_terminate. rewrite Htag. by destruct o. }
    unfold count_terminate at 2. simpl. lia.
  - rewrite Hts, count_terminate_app. unfold count_terminate at 2. simpl. lia.
  - lia.
  - rewrite Hts.
    pose proof (exited_total_alter set_joined _ _ _ Hj) as Ha.
    unfold exited in Ha. simpl in Ha. lia.
Qed.

Lemma trans_shutdown s e s' h :
  (forall i t, threads_ (pool (mach s)) !! i = Some t ->
     (joined t = true <->
      (i < joins_done (length (threads_ (pool (mach s)))) (dtor s))%nat) /\
     (joined t = true -> state t = Exited)) ->
  pc_in_range (length (threads_ (pool (mach s)))) (dtor s) ->
  shutdown_trace h = shutdown_trace_at (length (threads_ (pool (mach s)))) (dtor s) ->
  trans s e s' ->
  shutdown_trace (h ++ [e]) =
    shutdown_trace_at (length (threads_ (pool (mach s')))) (dtor s') /\
  pc_in_range (length (threads_ (pool (mach s')))) (dtor s').
Proof.
  intros Hjd Hpr Hs Ht. rewrite (trans_length s e s' Ht).
  trans_cases Ht; hist_snoc; fold (shutdown_trace h); try rewrite Hd;
    try rewrite Hpc in *; unfold shutdown_trace_at, pc_in_range in *.
  - done.
  - done.
  - destruct o; by rewrite ?app_nil_r.
  - split; [done|lia].
  - rewrite Hs. split; [|lia]. by rewrite replicate_S_end.
  - assert (length (threads_ (pool (mach s))) = i) as Hn by lia.
    rewrite Hn in *. rewrite Hs. simpl. split; [|lia]. by rewrite app_nil_r.
  - apply lookup_lt_Some in Hj as Hlt.
    rewrite Hs. split; [|lia]. by rewrite seq_S, map_app, app_assoc.
  - apply Hjd in Hj as [Hj _]. apply Hj in Hjn. simpl in Hjn. lia.
  - apply lookup_ge_None_1 in Hj.
    assert (length (threads_ (pool (mach s))) = j) as Hn by lia.
    rewrite Hn in *. by rewrite Hs.
Qed.

Lemma trans_workers s e s' h :
  (forall i t, threads_ (pool (mach s)) !! i = Some t ->
     length (filter (fun m => is_terminate m = true) (received i h)) = exited t /\
     exits i h = exited t) ->
  trans s e s' ->
  forall i t, threads_ (pool (mach s')) !! i = Some t ->
    length (filter (fun m => is_terminate m = true) (received i (h ++ [e]))) = exited t /\
    exits i (h ++ [e]) = exited t.
Proof.
  intros Hw Ht k t'. trans_cases Ht; try rewrite Hm; try rewrite Hts;
    hist_snoc; fold (received k h); fold (exits k h); try by apply Hw.
  - destruct r; try by apply Hw.
    intros [[<- (t0 & Hk & ->)]|[_ Hk]]%lookup_alter_thread; [|by apply Hw].
    assert (t0 = t) as -> by congruence.
    destruct (Hw i t Hi) as [Hr He]. unfold exited in *. simpl. by rewrite Hst in *.
  - rewrite length_app. fold (exits k h).
    destruct (decide (k = i)) as [->|Hne].
    + rewrite Nat.eqb_refl. destruct (Hw i t Hi) as [Hr He].
      unfold exited in Hr, He. rewrite Hst in Hr, He.
      assert (r = Returns Exited \/ r <> Returns Exited) as [->|Hr'].
      { destruct r as [[]| | |]; (by left) || (by right). }
      * destruct (proj1 Hterm eq_refl) as (m & -> & Hm).
        intros [[_ (t0 & Hk & ->)]|[? _]]%lookup_alter_thread; [|done].
        rewrite filter_app, length_app, Hr, He. simpl.
        rewrite filter_cons_True by done. done.
      * assert (threads_ (pool (mach s)) !! i = Some t' -> t' = t) as Heq
          by congruence.
        assert (match r with
                | Returns Exited => alter (set_state Exited) i (threads_ (pool (mach s)))
                | _ => threads_ (pool (mach s))
                end = threads_ (pool (mach s))) as ->.
        { by destruct r as [[]| | |]. }
        intros ->%Heq. unfold exited. rewrite Hst.
        rewrite filter_app, length_app, Hr, He.
        assert (length (filter (fun m => is_terminate m = true)
                  match head (storage (q_ (pool (mach s)))) with
                  | Some m => [m] | None => []
                  end) = 0%nat) as ->.
        { destruct (head (storage (q_ (pool (mach s))))) as [m|] eqn:Hh; [|done].
          destruct (is_terminate m) eqn:Hm.
          - exfalso. apply Hr', Hterm. eauto.
          - rewrite filter_cons_False; [done|]. by rewrite Hm. }
        split; [done|]. by destruct r as [[]| | |].
    + assert ((k =? i)%nat = false) as -> by by apply Nat.eqb_neq.
      assert (threads_ (pool (mach s)) !! k = Some t' ->
              length (filter (fun m => is_terminate m = true) (received k h)) = exited t' /\
              exits k h = exited t') as Hold by apply Hw.
      assert (match r with
              | Returns Exited => alter (set_state Exited) i (threads_ (pool (mach s)))
              | _ => threads_ (pool (mach s))
              end !! k = threads_ (pool (mach s)) !! k) as ->.
      { destruct r as [[]| | |]; try done. by apply list_lookup_alter_ne. }
      intros Hk. destruct (Hold Hk) as [Hr He].
      destruct (head (storage (q_ (pool (mach s))))); destruct r as [[]| | |]; simpl;
        rewrite ?app_nil_r, ?Nat.add_0_r; by split.
  - intros [[<- (t0 & Hk & ->)]|[_ Hk]]%lookup_alter_thread; [|by apply Hw].
    exact (Hw _ _ Hk).
Qed.

Lemma trans_joined s e s' :
  (forall i t, threads_ (pool (mach s)) !! i = Some t ->
     (joined t = true <->
      (i < joins_done (length (threads_ (pool (mach s)))) (dtor s))%nat) /\
     (joined t = true -> state t = Exited)) ->
  pc_in_range (length (threads_ (pool (mach s)))) (dtor s) ->
  trans s e s' ->
  forall i t, threads_ (pool (mach s')) !! i = Some t ->
    (joined t = true <->
     (i < joins_done (length (threads_ (pool (mach s')))) (dtor s'))%nat) /\
    (joined t = true -> state t = Exited).
Proof.
  intros Hjd Hpr Ht k t'. rewrite (trans_length s e s' Ht).
  trans_cases Ht; try rewrite Hm; try rewrite Hts; try rewrite Hd;
    try rewrite Hpc in *; simpl in *; try by apply Hjd.
  all: try (intros Hk; destruct (Hjd k t' Hk) as [Hj1 Hj2]; by split).
  - destruct r; try by apply Hjd.
    intros [[<- (t0 & Hk & ->)]|[_ Hk]]%lookup_alter_thread; [|by apply Hjd].
    destruct (Hjd i t0 Hk) as [Hj1 Hj2]. simpl. split; [done|].
    intros Hj. apply Hj2 in Hj. congruence.
  - destruct r as [[]| | |]; try by apply Hjd.
    intros [[<- (t0 & Hk & ->)]|[_ Hk]]%lookup_alter_thread; [|by apply Hjd].
    destruct (Hjd i t0 Hk) as [Hj1 Hj2]. simpl. by split.
  - intros [[<- (t0 & Hk & ->)]|[Hne Hk]]%lookup_alter_thread.
    + assert (t0 = t) as -> by congruence. simpl. split; [|done]. split; [lia|done].
    + destruct (Hjd k t' Hk) as [Hj1 Hj2]. simpl in Hj1.
      split; [|done]. rewrite Hj1. lia.
  - apply Hjd in Hj as [Hj _]. apply Hj in Hjn. simpl in Hjn. lia.
  - apply lookup_ge_None_1 in Hj. intros Hk.
    assert (length (threads_ (pool (mach s))) = j) as -> by lia. by apply Hjd.
Qed.

End Invariants.

(** ** Every run keeps the invariant *)

Section Runs.
Context `{Environment world}.
Implicit Types (s : system world) (h : list event).

Lemma trans_invariant s e s' h :
  invariant h s -> trans s e s' -> invariant (h ++ [e]) s'.
Proof.
  intros [Hc Hw Ho Hcap Htm Hb Ha Hs Hp Hwk Hj] Ht.
  destruct (trans_shutdown s e s' h Hj Hp Hs Ht) as [Hs' Hp'].
  split.
  - by apply (trans_conservation s).
  - by apply (trans_well_tagged s e s').
  - by apply (trans_overrun s).
  - by apply (trans_capacity s e).
  - by apply (trans_terminates s e).
  - apply Forall_app. split; [done|]. apply Forall_singleton.
    by apply (trans_block s e s').
  - apply Forall_app. split; [done|]. apply Forall_singleton.
    by apply (trans_assert s e s' h).
  - done.
  - done.
  - by apply (trans_workers s).
  - by apply (trans_joined s e).
Qed.

Lemma run_invariant acts s h h' s' :
  invariant h s -> run acts s = Some (h', s') -> invariant (h ++ h') s'.
Proof.
  revert s h h'. induction acts as [|a acts IH]; intros s h h' Hinv; simpl.
  - intros [= <- <-]. by rewrite app_nil_r.
  - destruct (step a s) as [[e s1]|] eqn:Hstep; [|done].
    destruct (run acts s1) as [[h1 s2]|] eqn:Hrun; [|done].
    intros [= <- <-]. rewrite cons_middle, app_assoc.
    apply (IH s1); [|done]. apply (trans_invariant s); [done|].
    by apply (step_trans a).
Qed.

Lemma run_length acts s h s' :
  run acts s = Some (h, s') ->
  length (threads_ (pool (mach s'))) = length (threads_ (pool (mach s))).
Proof.
  revert s h. induction acts as [|a acts IH]; intros s h; simpl.
  - by intros [= <- <-].
  - destruct (step a s) as [[e s1]|] eqn:Hstep; [|done].
    destruct (run acts s1) as [[h1 s2]|] eqn:Hrun; [|done].
    intros [= <- <-]. rewrite (IH _ _ Hrun).
    by apply (trans_length s e), (step_trans a).
Qed.

Lemma boot_state q_max_items threads_n on_thread_start (e : world) s :
  boot q_max_items threads_n on_thread_start e = Some s ->
  s = {| mach :=
           {| pool := {| q_ := mpmc_blocking_queue_ctor q_max_items;
                         threads_ := replicate (N.to_nat threads_n)
                                       (new_thread on_thread_start) |};
              env := e |};
         dtor := Alive; halted := false |}.
Proof.
  unfold boot, thread_pool_ctor, thread_pool_body.
  destruct ((threads_n =? 0)%N || (1000 <? threads_n)%N); [done|].
  unfold bind at 1. simpl. rewrite emplace_threads. simpl. by intros [= <-].
Qed.

Lemma boot_invariant q_max_items threads_n on_thread_start (e : world) s :
  boot q_max_items threads_n on_thread_start e = Some s -> invariant [] s.
Proof.
  intros ->%boot_state. split; simpl; try done.
  - apply N.le_0_l.
  - unfold exited_total, count_terminate. simpl.
    induction (N.to_nat threads_n) as [|n IH]; [done|]. simpl. by rewrite IH.
  - intros i t [-> _]%lookup_replicate_1. done.
  - intros i t [-> _]%lookup_replicate_1. simpl. split; [|done]. split; [done|lia].
Qed.

Lemma reachable_invariant q_max_items threads_n on_thread_start (e : world) s0 acts h s :
  boot q_max_items threads_n on_thread_start e = Some s0 ->
  run acts s0 = Some (h, s) ->
  invariant h s /\ length (threads_ (pool (mach s))) = N.to_nat threads_n.
Proof.
  intros Hboot Hrun. split.
  - apply (run_invariant acts s0 [] h s); [|done]. by eapply boot_invariant.
  - rewrite (run_length _ _ _ _ Hrun). apply boot_state in Hboot as ->. simpl.
    by rewrite length_replicate.
Qed.

End Runs.

(** ** The destructor runs to its end *)

Section Liveness.
Context `{Environment world}.
Hypothesis Hrel : reliable.
Implicit Types (s : system world) (h : list event) (ts : list (thread world)).

Lemma run_single a s e s' : step a s = Some (e, s') -> run [a] s = Some ([e], s').
Proof. intros Hs. simpl. by rewrite Hs. Qed.

Lemma run_app acts1 acts2 s h1 s1 h2 s2 :
  run acts1 s = Some (h1, s1) -> run acts2 s1 = Some (h2, s2) ->
  run (acts1 ++ acts2) s = Some (h1 ++ h2, s2).
Proof.
  revert s h1. induction acts1 as [|a acts1 IH]; intros s h1; simpl.
  - by intros [= <- <-].
  - destruct (step a s) as [[e s0]|]; [|done].
    destruct (run acts1 s0) as [[h0 s0']|] eqn:Hr; [|done].
    intros [= <- <-] H2. by rewrite (IH _ _ Hr H2).
Qed.

Lemma hooks_alter (f : thread world -> thread world) i ts :
  (forall t, on_thread_start (f t) = on_thread_start t) ->
  Forall (fun t => forall w, fst (on_thread_start t w) = None) ts ->
  Forall (fun t => forall w, fst (on_thread_start t w) = None) (alter f i ts).
Proof.
  intros Hf Hts. apply Forall_alter; [done|]. intros t _ Ht. by rewrite Hf.
Qed.

(** A worker that has not started runs its hook. *)
Lemma step_start s i t :
  serviceable s -> threads_ (pool (mach s)) !! i = Some t -> state t = Starting ->
  exists e s', step (run_thread i) s = Some (e, s') /\
    serviceable s' /\ dtor s' = dtor s /\
    q_ (pool (mach s')) = q_ (pool (mach s)) /\
    threads_ (pool (mach s')) = alter (set_state Running) i (threads_ (pool (mach s))).
Proof.
  intros (Hh & Hcap & Hq & Hts) Hi Hst.
  pose proof (proj1 (Forall_lookup _ _) Hts i t Hi (env (mach s))) as Hhook.
  unfold step. rewrite Hh, Hi. unfold thread_step. rewrite Hst.
  unfold bind, call, with_threads, ret. simpl.
  destruct (on_thread_start t (env (mach s))) as [[x|] e'] eqn:Hk; simpl in *; [done|].
  eexists _, _. split; [reflexivity|]. simpl. repeat split; try done.
  by apply hooks_alter.
Qed.

Lemma process_next_msg_reliable (m : machine world) :
  Forall dispatchable (storage (q_ (pool m))) ->
  exists b m', process_next_msg_ m = (Returns b, m').
Proof.
  intros Hq. destruct (storage (q_ (pool m))) as [|x rest] eqn:Hs.
  { rewrite (process_next_msg_empty m Hs). eauto. }
  apply Forall_cons in Hq as [[Ht|[[Ht|Ht] Hp]] _].
  - rewrite (process_next_msg_terminate m x rest Hs Ht). eauto.
  - rewrite (process_next_msg_log m x rest Hs Ht).
    unfold dispatch_to_destinations, bind, deref, call, ret.
    destruct (worker_ptr x) as [l|]; [|done]. simpl.
    pose proof (proj1 Hrel l x (env m)) as Hb.
    destruct (backend_sink_it_ l x (env m)) as [[e|] w]; simpl in *; [done|]. eauto.
  - rewrite (process_next_msg_flush m x rest Hs Ht).
    unfold flush_all_destinations, bind, deref, call, ret.
    destruct (worker_ptr x) as [l|]; [|done]. simpl.
    pose proof (proj2 Hrel l (env m)) as Hb.
    destruct (backend_flush_ l (env m)) as [[e|] w]; simpl in *; [done|]. eauto.
Qed.

(** A worker in its loop runs one iteration. *)
Lemma step_pop s i t :
  serviceable s -> threads_ (pool (mach s)) !! i = Some t -> state t = Running ->
  exists e s', step (run_thread i) s = Some (e, s') /\
    serviceable s' /\ dtor s' = dtor s /\
    q_ (pool (mach s')) = pop_front (q_ (pool (mach s))) /\
    threads_ (pool (mach s')) =
      match storage (q_ (pool (mach s))) with
      | m :: _ => if is_terminate m
                  then alter (set_state Exited) i (threads_ (pool (mach s)))
                  else threads_ (pool (mach s))
      | [] => threads_ (pool (mach s))
      end.
Proof.
  intros (Hh & Hcap & Hq & Hts) Hi Hst.
  destruct (process_next_msg_reliable (mach s) Hq) as (b & m' & Hp).
  pose proof (process_next_msg_effect _ _ _ Hp) as (Hq' & Hts' & Hterm & _).
  unfold step. rewrite Hh, Hi. unfold thread_step. rewrite Hst.
  unfold bind at 1. rewrite Hp.
  assert (Forall dispatchable (storage (q_ (pool m')))) as Hq2.
  { rewrite Hq'. simpl. destruct (storage (q_ (pool (mach s)))); [done|].
    by apply Forall_cons in Hq as [_ ?]. }
  assert ((0 < capacity (q_ (pool m')))%N) as Hcap2 by by rewrite Hq'.
  destruct b.
  - eexists _, _. split; [reflexivity|]. simpl. repeat split; try done.
    + simpl. by rewrite Hts'.
    + rewrite Hts'. destruct (storage (q_ (pool (mach s)))) as [|x rest]; [done|].
      destruct (is_terminate x) eqn:Hx; [|done].
      assert (Returns true = Returns false) as Hfalse; [|done].
      apply Hterm. eauto.
  - destruct (proj1 Hterm eq_refl) as (x & Hx & Hxt).
    unfold bind, with_threads, ret. simpl.
    eexists _, _. split; [reflexivity|]. simpl. repeat split; try done.
    + simpl. rewrite Hts'. by apply hooks_alter.
    + rewrite Hts'. destruct (storage (q_ (pool (mach s)))) as [|x' rest]; [done|].
      injection Hx as ->. by rewrite Hxt.
Qed.


(** The destructor's steps. *)
Lemma step_enter s :
  serviceable s -> dtor s = Alive ->
  exists e s', step run_destructor s = Some (e, s') /\
    serviceable s' /\ dtor s' = Posting 0 /\ mach s' = mach s.
Proof.
  intros (Hh & Hcap & Hq & Hts) Hpc. unfold step. rewrite Hh, Hpc. simpl.
  eexists _, _. split; [reflexivity|]. by repeat split.
Qed.

Lemma step_post s i :
  serviceable s -> dtor s = Posting i ->
  (i < length (threads_ (pool (mach s))))%nat -> full (q_ (pool (mach s))) = false ->
  exists e s', step run_destructor s = Some (e, s') /\
    serviceable s' /\ dtor s' = Posting (S i) /\
    threads_ (pool (mach s')) = threads_ (pool (mach s)).
Proof.
  intros (Hh & Hcap & Hq & Hts) Hpc Hlt Hf. unfold step. rewrite Hh, Hpc.
  unfold thread_pool_dtor_step, try_catch_std.
  apply Nat.ltb_lt in Hlt. rewrite Hlt. unfold bind.
  rewrite post_async_msg_unfold, Hf. simpl.
  eexists _, _. split; [reflexivity|]. simpl. repeat split; try done.
  apply Forall_app. split; [done|]. apply Forall_singleton. by left.
Qed.

Lemma step_posting_done s i :
  serviceable s -> dtor s = Posting i ->
  ~ (i < length (threads_ (pool (mach s))))%nat ->
  exists e s', step run_destructor s = Some (e, s') /\
    serviceable s' /\ dtor s' = Joining 0 /\ mach s' = mach s.
Proof.
  intros (Hh & Hcap & Hq & Hts) Hpc Hge. unfold step. rewrite Hh, Hpc.
  unfold thread_pool_dtor_step, try_catch_std.
  apply Nat.ltb_nlt in Hge. rewrite Hge. simpl.
  eexists _, _. split; [reflexivity|]. by repeat split.
Qed.

Lemma step_join s j t :
  serviceable s -> dtor s = Joining j ->
  threads_ (pool (mach s)) !! j = Some t -> joined t = false -> state t = Exited ->
  exists e s', step run_destructor s = Some (e, s') /\
    serviceable s' /\ dtor s' = Joining (S j) /\
    length (threads_ (pool (mach s'))) = length (threads_ (pool (mach s))).
Proof.
  intros (Hh & Hcap & Hq & Hts) Hpc Hj Hjn Hst. unfold step. rewrite Hh, Hpc.
  unfold thread_pool_dtor_step, try_catch_std. rewrite Hj.
  unfold bind, join. rewrite Hjn, Hst. unfold with_threads, ret. simpl.
  eexists _, _. split; [reflexivity|]. simpl. repeat split; try done.
  - by apply hooks_alter.
  - by rewrite length_alter.
Qed.

Lemma step_joining_done s j :
  serviceable s -> dtor s = Joining j -> threads_ (pool (mach s)) !! j = None ->
  exists e s', step run_destructor s = Some (e, s') /\
    serviceable s' /\ dtor s' = Destroyed.
Proof.
  intros (Hh & Hcap & Hq & Hts) Hpc Hj. unfold step. rewrite Hh, Hpc.
  unfold thread_pool_dtor_step, try_catch_std. rewrite Hj. simpl.
  eexists _, _. split; [reflexivity|]. by repeat split.
Qed.

(** Runs of the pool alone. *)
Lemma reaches_refl s : reaches s s.
Proof. exists [], []. by split. Qed.

Lemma reaches_step a s e s' :
  step a s = Some (e, s') -> of_pool a -> reaches s s'.
Proof.
  intros Hs Ha. exists [a], [e]. split; [by apply Forall_singleton|].
  by apply run_single.
Qed.

Lemma reaches_trans s1 s2 s3 : reaches s1 s2 -> reaches s2 s3 -> reaches s1 s3.
Proof.
  intros (a1 & h1 & Ha1 & Hr1) (a2 & h2 & Ha2 & Hr2).
  exists (a1 ++ a2), (h1 ++ h2). split; [by apply Forall_app|].
  by eapply run_app.
Qed.

Lemma reaches_invariant s s' h :
  invariant h s -> reaches s s' -> exists h', invariant h' s'.
Proof.
  intros Hinv (acts & h' & _ & Hrun). exists (h ++ h'). by eapply run_invariant.
Qed.

Lemma reaches_length s s' :
  reaches s s' ->
  length (threads_ (pool (mach s'))) = length (threads_ (pool (mach s))).
Proof. intros (acts & h' & _ & Hrun). by eapply run_length. Qed.


Lemma exited_total_le ts : (exited_total ts <= length ts)%nat.
Proof.
  unfold exited_total. induction ts as [|t ts IH]; simpl; [done|].
  unfold exited at 1. destruct (state t); lia.
Qed.

Lemma exited_total_lt ts i t :
  ts !! i = Some t -> state t <> Exited -> (exited_total ts < length ts)%nat.
Proof.
  revert i. induction ts as [|t0 ts IH]; intros [|i]; simpl; try done.
  - intros [= ->] Hst. pose proof (exited_total_le ts) as Hle.
    unfold exited_total in *. simpl. unfold exited at 1.
    destruct (state t); [lia|lia|done].
  - intros Hi Hst. specialize (IH i Hi Hst).
    unfold exited_total in *. simpl. unfold exited at 1. destruct (state t0); lia.
Qed.

Lemma not_all_exited ts :
  (exited_total ts < length ts)%nat ->
  exists i t, ts !! i = Some t /\ state t <> Exited.
Proof.
  unfold exited_total. induction ts as [|t0 ts IH]; simpl; [lia|].
  destruct (state t0) eqn:Hst.
  - intros _. exists 0%nat, t0. split; [done|]. by rewrite Hst.
  - intros _. exists 0%nat, t0. split; [done|]. by rewrite Hst.
  - unfold exited at 1. rewrite Hst. intros Hlt.
    destruct IH as (i & t & Hi & Ht); [lia|]. by exists (S i), t.
Qed.

(** A worker that has not exited gets into its loop. *)
Lemma make_running s i t :
  serviceable s -> threads_ (pool (mach s)) !! i = Some t -> state t <> Exited ->
  exists s', reaches s s' /\ serviceable s' /\ dtor s' = dtor s /\
    q_ (pool (mach s')) = q_ (pool (mach s)) /\
    exists t', threads_ (pool (mach s')) !! i = Some t' /\ state t' = Running.
Proof.
  intros Hsv Hi Hst. destruct (state t) eqn:Hs; [| |done].
  - destruct (step_start s i t Hsv Hi Hs) as (e & s' & Hstep & Hsv' & Hd & Hq & Hts).
    exists s'. split; [by eapply reaches_step|].
    split_and!; try done. exists (set_state Running t). split; [|done].
    by rewrite Hts, list_lookup_alter_eq, Hi.
  - exists s. split; [apply reaches_refl|]. split_and!; try done. by exists t.
Qed.

(** A worker in its loop, with a terminate envelope somewhere in the queue,
    gets to it and exits. *)
Lemma drain_to_terminate l : forall s i t,
  storage (q_ (pool (mach s))) = l -> (1 <= count_terminate l)%nat ->
  serviceable s -> threads_ (pool (mach s)) !! i = Some t -> state t = Running ->
  exists s', reaches s s' /\ serviceable s' /\ dtor s' = dtor s /\
    exists t', threads_ (pool (mach s')) !! i = Some t' /\ state t' = Exited.
Proof.
  induction l as [|m rest IH]; intros s i t Hl Hc Hsv Hi Hst.
  { unfold count_terminate in Hc. simpl in Hc. lia. }
  destruct (step_pop s i t Hsv Hi Hst) as (e & s1 & Hstep & Hsv1 & Hd1 & Hq1 & Hts1).
  assert (reaches s s1) as Hr1 by by eapply reaches_step.
  rewrite Hl in Hts1. rewrite count_terminate_cons in Hc.
  destruct (is_terminate m) eqn:Hm.
  - exists s1. split_and!; try done. exists (set_state Exited t).
    split; [|done]. by rewrite Hts1, list_lookup_alter_eq, Hi.
  - destruct (IH s1 i t) as (s2 & Hr2 & Hsv2 & Hd2 & Ht2); try done.
    + by rewrite Hq1; simpl; rewrite Hl.
    + by rewrite Hts1.
    + exists s2. split; [by eapply reaches_trans|]. split_and!; try done.
      by rewrite Hd2.
Qed.

(** The destructor gets one iteration further. *)
Lemma progress s h :
  invariant h s -> serviceable s -> dtor s <> Destroyed ->
  exists s', reaches s s' /\ serviceable s' /\
    (steps_left (length (threads_ (pool (mach s)))) (dtor s') <
     steps_left (length (threads_ (pool (mach s)))) (dtor s))%nat.
Proof.
  intros Hinv Hsv Hnd. destruct (dtor s) as [|i|j|] eqn:Hpc; [| | |done].
  - destruct (step_enter s Hsv Hpc) as (e & s' & Hstep & Hsv' & Hd & _).
    exists s'. split; [by eapply reaches_step|].
    split; [done|]. rewrite Hd. simpl. lia.
  - pose proof (inv_pc _ _ Hinv) as Hrange. rewrite Hpc in Hrange. simpl in Hrange.
    destruct (decide (i < length (threads_ (pool (mach s))))%nat) as [Hlt|Hge].
    + destruct (full (q_ (pool (mach s)))) eqn:Hf.
      * pose proof (inv_terminates _ _ Hinv) as Htm. rewrite Hpc in Htm. simpl in Htm.
        destruct (not_all_exited (threads_ (pool (mach s)))) as (x & t & Hx & Hst);
          [lia|].
        destruct (make_running s x t Hsv Hx Hst)
          as (s1 & Hr1 & Hsv1 & Hd1 & Hq1 & t1 & Hx1 & Hst1).
        destruct (reaches_invariant _ _ _ Hinv Hr1) as (h1 & Hinv1).
        destruct (step_pop s1 x t1 Hsv1 Hx1 Hst1)
          as (e2 & s2 & Hstep2 & Hsv2 & Hd2 & Hq2 & Hts2).
        assert (reaches s1 s2) as Hr2 by by eapply reaches_step.
        assert (reaches s s2) as Hr by by eapply reaches_trans.
        pose proof (reaches_length _ _ Hr) as Hlen.
        assert (full (q_ (pool (mach s2))) = false) as Hf2.
        { pose proof (inv_capacity _ _ Hinv) as Hcap.
          destruct Hsv as (_ & Hpos & _). rewrite Hq2, Hq1.
          unfold full, q_size in *. simpl. apply N.leb_le in Hf. apply N.leb_gt.
          destruct (storage (q_ (pool (mach s)))); simpl in *; lia. }
        destruct (step_post s2 i Hsv2) as (e3 & s3 & Hstep3 & Hsv3 & Hd3 & _);
          [by rewrite Hd2, Hd1|by rewrite Hlen|done|].
        exists s3. split.
        { eapply reaches_trans; [exact Hr|]. by eapply reaches_step. }
        split; [done|]. rewrite Hd3. simpl. lia.
      * destruct (step_post s i Hsv Hpc Hlt Hf) as (e & s' & Hstep & Hsv' & Hd & _).
        exists s'. split; [by eapply reaches_step|].
        split; [done|]. rewrite Hd. simpl. lia.
    + destruct (step_posting_done s i Hsv Hpc Hge) as (e & s' & Hstep & Hsv' & Hd & _).
      exists s'. split; [by eapply reaches_step|].
      split; [done|]. rewrite Hd. simpl. lia.
  - pose proof (inv_pc _ _ Hinv) as Hrange. rewrite Hpc in Hrange. simpl in Hrange.
    destruct (threads_ (pool (mach s)) !! j) as [t|] eqn:Hj.
    + apply lookup_lt_Some in Hj as Hlt.
      assert (exists s2 t2, reaches s s2 /\ serviceable s2 /\ dtor s2 = Joining j /\
                threads_ (pool (mach s2)) !! j = Some t2 /\ state t2 = Exited)
        as (s2 & t2 & Hr2 & Hsv2 & Hd2 & Hj2 & Hst2).
      { assert (state t = Exited \/ state t <> Exited) as [Hst|Hst]
          by (destruct (state t); (by left) || (by right)).
        { exists s, t. split; [apply reaches_refl|]. by split_and!. }
        destruct (make_running s j t Hsv Hj Hst)
          as (s1 & Hr1 & Hsv1 & Hd1 & Hq1 & t1 & Hj1 & Hst1).
        destruct (reaches_invariant _ _ _ Hinv Hr1) as (h1 & Hinv1).
        pose proof (inv_terminates _ _ Hinv1) as Htm. rewrite Hd1, Hpc in Htm.
        simpl in Htm.
        assert (exited_total (threads_ (pool (mach s1))) <
                length (threads_ (pool (mach s1))))%nat as Hex.
        { apply (exited_total_lt _ j t1); [done|]. by rewrite Hst1. }
        destruct (drain_to_terminate _ s1 j t1 eq_refl) as (s2 & Hr2 & Hsv2 & Hd2 & t2 & Hj2 & Hst2);
          try done; [lia|].
        exists s2, t2. split; [by eapply reaches_trans|]. split_and!; try done.
        by rewrite Hd2, Hd1. }
      destruct (reaches_invariant _ _ _ Hinv Hr2) as (h2 & Hinv2).
      destruct (inv_joined _ _ Hinv2 j t2 Hj2) as [Hjn _]. rewrite Hd2 in Hjn.
      simpl in Hjn.
      assert (joined t2 = false) as Hnj.
      { destruct (joined t2); [|done]. assert (j < j)%nat by by apply Hjn. lia. }
      destruct (step_join s2 j t2 Hsv2 Hd2 Hj2 Hnj Hst2)
        as (e & s3 & Hstep & Hsv3 & Hd3 & _).
      exists s3. split.
      { eapply reaches_trans; [exact Hr2|]. by eapply reaches_step. }
      split; [done|]. rewrite Hd3. simpl. lia.
    + destruct (step_joining_done s j Hsv Hpc Hj) as (e & s' & Hstep & Hsv' & Hd).
      exists s'. split; [by eapply reaches_step|].
      split; [done|]. rewrite Hd. simpl. lia.
Qed.

(** The destructor runs to its end. *)
Lemma destructor_returns s h :
  invariant h s -> serviceable s -> exists s', reaches s s' /\ dtor s' = Destroyed.
Proof.
  remember (steps_left (length (threads_ (pool (mach s)))) (dtor s)) as k eqn:Hk.
  revert s h Hk. induction k as [k IH] using lt_wf_ind. intros s h Hk Hinv Hsv.
  assert (dtor s = Destroyed \/ dtor s <> Destroyed) as [Hd|Hd]
    by (destruct (dtor s); (by left) || (by right)).
  { exists s. split; [apply reaches_refl|done]. }
  destruct (progress s h Hinv Hsv Hd) as (s1 & Hr1 & Hsv1 & Hlt).
  destruct (reaches_invariant _ _ _ Hinv Hr1) as (h1 & Hinv1).
  destruct (IH (steps_left (length (threads_ (pool (mach s1)))) (dtor s1))) with (s := s1) (h := h1)
    as (s2 & Hr2 & Hd2); try done.
  { rewrite (reaches_length _ _ Hr1). lia. }
  exists s2. split; [by eapply reaches_trans|done].
Qed.

End Liveness.

(** ** What each step does to the destinations *)

Section Effects.
Context `{Environment world}.
Implicit Types (s : system world) (h : list event).




End Effects.

(** ** The pool as a whole *)

Section Claims.
Context `{Environment world}.
Implicit Types (s : system world) (h : list event).

Lemma run_events (P : event -> Prop) :
  (forall s e s', trans s e s' -> P e) ->
  forall acts s h s', run acts s = Some (h, s') -> Forall P h.
Proof.
  intros HP. induction acts as [|a acts IH]; intros s h s'; simpl.
  - by intros [= <- <-].
  - destruct (step a s) as [[e s1]|] eqn:Hstep; [|done].
    destruct (run acts s1) as [[h1 s2]|] eqn:Hrun; [|done].
    intros [= <- <-]. apply Forall_cons. split; [|by eapply IH].
    by eapply HP, (step_trans a).
Qed.


Lemma boot_serviceable q_max_items threads_n on_thread_start (e : world) s :
  boot q_max_items threads_n on_thread_start e = Some s ->
  (0 < q_max_items)%N -> (forall w, fst (on_thread_start w) = None) ->
  serviceable s.
Proof.
  intros ->%boot_state Hcap Hhook. repeat split; simpl; try done.
  apply Forall_forall. by intros t [-> _]%elem_of_replicate.
Qed.




(** C2. When the destructor of a pool constructed with [threads_n] workers
    has returned, what it did is: [threads_n] submissions of a terminate
    envelope, each under the block policy and each accepted, and after all of
    them the joins of the [threads_n] workers in turn.  Every worker has then
    exited and been joined, has received exactly one terminate envelope and
    has left its drain loop exactly once.  Before that, at every point of
    every run, the destructor has done the part of this that its position
    tells, and a worker has received one terminate envelope and left its loop
    once if it has exited, and none otherwise.  And the destructor does
    return: from every state of a run in which the process is running, the
    queue has at least one slot and holds envelopes that can be processed, and
    the front-end contains the failures of its destinations, the pool alone
    can take the destructor to its end; a pool just constructed on a queue
    with a slot, with a hook that returns, is in such a state. *)
Theorem shutdown_protocol (q_max_items threads_n : size_t)
    (on_thread_start : external world) (e0 : world) s0 acts h s :
  boot q_max_items threads_n on_thread_start e0 = Some s0 ->
  run acts s0 = Some (h, s) ->
  length (threads_ (pool (mach s))) = N.to_nat threads_n /\
  shutdown_trace h = shutdown_trace_at (N.to_nat threads_n) (dtor s) /\
  (forall i t, threads_ (pool (mach s)) !! i = Some t ->
     length (filter (fun m => is_terminate m = true) (received i h)) = exited t /\
     exits i h = exited t /\ (exited t <= 1)%nat /\
     (joined t = true -> state t = Exited)) /\
  (dtor s = Destroyed ->
   shutdown_trace h =
     replicate (N.to_nat threads_n) terminate_post ++
     map ev_joined (seq 0 (N.to_nat threads_n)) /\
   forall i, (i < N.to_nat threads_n)%nat ->
     exists t, threads_ (pool (mach s)) !! i = Some t /\
       state t = Exited /\ joined t = true /\
       length (filter (fun m => is_terminate m = true) (received i h)) = 1%nat /\
       exits i h = 1%nat) /\
  ((0 < q_max_items)%N -> (forall w, fst (on_thread_start w) = None) ->
   serviceable s0) /\
  (reliable -> serviceable s ->
   exists s', reaches s s' /\ dtor s' = Destroyed).
Proof.
  intros Hboot Hrun.
  destruct (reachable_invariant _ _ _ _ _ _ _ _ Hboot Hrun) as [Hinv Hlen].
  assert (reliable -> serviceable s ->
          exists s', reaches s s' /\ dtor s' = Destroyed) as Hlive.
  { intros Hrel Hsv. by apply (destructor_returns Hrel s h). }
  destruct Hinv as [_ _ _ _ _ _ _ Hs _ Hwk Hj]. rewrite Hlen in Hs, Hj.
  split; [done|]. split; [done|]. split; [|split; [|split; [|done]]].
  3: { intros Hcap Hhook. by eapply boot_serviceable. }
  - intros i t Hi. destruct (Hwk i t Hi) as [Hr He]. destruct (Hj i t Hi) as [_ Hx].
    repeat split; try done. unfold exited. destruct (state t); lia.
  - intros Hd. rewrite Hd in Hs, Hj. split; [done|]. intros i Hi.
    destruct (lookup_lt_is_Some_2 (threads_ (pool (mach s))) i) as [t Ht]; [lia|].
    destruct (Hj i t Ht) as [Hjn Hx]. destruct (Hwk i t Ht) as [Hr He].
    assert (joined t = true) as Hjt by by apply Hjn.
    assert (state t = Exited) as Hst by by apply Hx.
    exists t. unfold exited in Hr, He. rewrite Hst in Hr, He. done.
Qed.

(** C7. In every state that a run of the program reaches, the [msg_type] of
    every envelope in the queue is log, flush or terminate; no iteration of a
    drain loop has ended in the [default] arm, and none that can run next
    does: [assert(false)] is never executed. *)
Theorem default_arm_unreachable (q_max_items threads_n : size_t)
    (on_thread_start : external world) (e0 : world) s0 acts h s :
  boot q_max_items threads_n on_thread_start e0 = Some s0 ->
  run acts s0 = Some (h, s) ->
  Forall (fun m => msg_type m = async_msg_type.log \/
                   msg_type m = async_msg_type.flush \/
                   msg_type m = async_msg_type.terminate)
         (storage (q_ (pool (mach s)))) /\
  Forall no_assertion_failure h /\
  fst (process_next_msg_ (mach s)) <> Faults assertion_failure /\
  (forall a e s', step a s = Some (e, s') -> no_assertion_failure e).
Proof.
  intros Hboot Hrun.
  destruct (reachable_invariant _ _ _ _ _ _ _ _ Hboot Hrun) as [Hinv _].
  destruct Hinv as [Hc Hw _ _ _ _ Ha _ _ _ _].
  assert (Forall well_tagged (storage (q_ (pool (mach s))))) as Hq.
  { rewrite Hc in Hw. by apply Forall_app in Hw as [_ ?]. }
  split; [|split; [done|split]].
  - eapply Forall_impl; [exact Hq|]. apply well_tagged_msg_type.
  - destruct (process_next_msg_ (mach s)) as [r m'] eqn:Hp.
    apply process_next_msg_effect in Hp as (_ & _ & _ & Hassert). simpl.
    apply Hassert. intros m Hm.
    destruct (storage (q_ (pool (mach s)))) as [|m0 rest]; [done|].
    injection Hm as <-. by apply Forall_cons in Hq as [? _].
  - intros a e s' Hstep. apply (trans_assert s e s' h); [done|done|].
    by apply (step_trans a).
Qed.





(** C10. The envelope that [async_msg(async_msg_type::terminate)] builds has
    a null [worker_ptr]; it is the envelope of every submission of the
    destructor, and in every run every terminate envelope in the queue has a
    null [worker_ptr].  On a terminate envelope [process_next_msg_] returns
    false without using [worker_ptr], whatever it is; on a log or flush
    envelope with a null [worker_ptr] it dereferences the null pointer. *)
Theorem terminate_needs_no_target :
  worker_ptr (async_msg_ctor1 async_msg_type.terminate) = None /\
  (forall (q_max_items threads_n : size_t) (on_thread_start : external world)
          (e0 : world) s0 acts h s,
     boot q_max_items threads_n on_thread_start e0 = Some s0 ->
     run acts s0 = Some (h, s) ->
     Forall (fun e => match e with
                      | ev_posted by_destructor m _ _ =>
                          m = async_msg_ctor1 async_msg_type.terminate
                      | _ => True
                      end) h /\
     Forall (fun m => is_terminate m = true -> worker_ptr m = None)
            (storage (q_ (pool (mach s))))) /\
  (forall (s : machine world) m rest,
     storage (q_ (pool s)) = m :: rest ->
     msg_type m = async_msg_type.terminate ->
     process_next_msg_ s = (Returns false, set_storage rest s)) /\
  (forall (s : machine world) m rest,
     storage (q_ (pool s)) = m :: rest ->
     worker_ptr m = None ->
     msg_type m = async_msg_type.log \/ msg_type m = async_msg_type.flush ->
     process_next_msg_ s = (Faults null_dereference, set_storage rest s)).
Proof.
  split; [reflexivity|]. split; [|split].
  - intros q_max_items threads_n on_thread_start e0 s0 acts h s Hboot Hrun. split.
    + apply (run_events _) with (acts := acts) (s := s0) (s' := s); [|done].
      intros s1 e s2 Ht. trans_cases Ht; try done. by destruct o.
    + destruct (reachable_invariant _ _ _ _ _ _ _ _ Hboot Hrun) as [Hinv _].
      destruct Hinv as [Hc Hw _ _ _ _ _ _ _ _ _].
      rewrite Hc in Hw. apply Forall_app in Hw as [_ Hq].
      eapply Forall_impl; [exact Hq|]. intros m [Hm|[Hm| ->]]; [| |done].
      * by rewrite (is_terminate_log m Hm).
      * by rewrite (is_terminate_flush m Hm).
  - apply process_next_msg_terminate.
  - intros s m rest Hq Hp [Ht|Ht].
    + rewrite (process_next_msg_log s m rest Hq Ht).
      unfold dispatch_to_destinations, bind, deref. by rewrite Hp.
    + rewrite (process_next_msg_flush s m rest Hq Ht).
      unfold flush_all_destinations, bind, deref. by rewrite Hp.
Qed.

End Claims.

(** ** Submissions during shutdown, failing destinations, ownership *)

Section Failures.
Context `{Environment world}.
Implicit Types (s : system world) (h : list event).

(** C5, as the code has it.  Neither [post_log] nor [post_flush] looks at
    whether the destructor has been entered, and neither reports anything:
    while the pool object exists, a submission does what it does at any
    other time, wherever the destructor is.  Under the block policy with a
    full queue the producer is suspended and nothing changes.  Otherwise the
    call returns: when the queue has room the envelope is at the tail of the
    queue and the overrun counter is what it was; when the queue is full and
    the policy is discard, the queue holds what it held and the overrun
    counter has gone up by one. *)
Theorem post_after_shutdown s stack (p : async_logger_ptr) msg pol :
  halted s = false -> dtor s <> Destroyed ->
  let submit (m : async_msg) : outcome async_logger_ptr * machine world :=
    match pol, full (q_ (pool (mach s))) with
    | block, true => (Blocks, mach s)
    | discard, true =>
        (Returns None,
         {| pool := {| q_ := {| capacity := capacity (q_ (pool (mach s)));
                                storage := storage (q_ (pool (mach s)));
                                overrun_count :=
                                  (overrun_count (q_ (pool (mach s))) + 1)%N |};
                       threads_ := threads_ (pool (mach s)) |};
            env := env (mach s) |})
    | _, false =>
        (Returns None,
         {| pool := {| q_ := {| capacity := capacity (q_ (pool (mach s)));
                                storage := storage (q_ (pool (mach s))) ++ [m];
                                overrun_count := overrun_count (q_ (pool (mach s))) |};
                       threads_ := threads_ (pool (mach s)) |};
            env := env (mach s) |})
    end in
  let log_m :=
    {| base := log_msg_buffer_ctor stack msg; msg_type := async_msg_type.log;
       worker_ptr := p |} in
  let flush_m :=
    {| base := log_msg_buffer_default; msg_type := async_msg_type.flush;
       worker_ptr := p |} in
  post_log stack p msg pol (mach s) = submit log_m /\
  post_flush p pol (mach s) = submit flush_m /\
  step (call_post_log stack p msg pol) s =
    (if is_block pol && full (q_ (pool (mach s))) then None
     else Some (ev_posted by_post_log log_m pol (negb (full (q_ (pool (mach s))))),
                {| mach := snd (submit log_m); dtor := dtor s; halted := false |})) /\
  step (call_post_flush p pol) s =
    (if is_block pol && full (q_ (pool (mach s))) then None
     else Some (ev_posted by_post_flush flush_m pol
                  (negb (full (q_ (pool (mach s))))),
                {| mach := snd (submit flush_m); dtor := dtor s;
                   halted := false |})).
Proof.
  intros Hh Hd submit log_m flush_m.
  assert (post_log stack p msg pol (mach s) = submit log_m) as Hlog.
  { unfold post_log, async_msg_ctor3, move_ptr, bind, submit. simpl.
    rewrite post_async_msg_unfold. unfold count_overrun, push_back.
    by destruct pol, (full (q_ (pool (mach s)))). }
  assert (post_flush p pol (mach s) = submit flush_m) as Hflush.
  { unfold post_flush, async_msg_ctor2, move_ptr, bind, submit. simpl.
    rewrite post_async_msg_unfold. unfold count_overrun, push_back.
    by destruct pol, (full (q_ (pool (mach s)))). }
  split; [done|]. split; [done|].
  unfold step. rewrite Hh, Hlog, Hflush. unfold submit.
  split; destruct pol, (full (q_ (pool (mach s)))), (dtor s); done.
Qed.

(** C6, as the code has it.  Neither [worker_loop_] nor [process_next_msg_]
    has a handler.  When the target's dispatch or flush operation returns, the
    iteration returns true and the loop goes on with the next envelope; when
    it raises, the exception leaves [process_next_msg_] and [worker_loop_]
    with it, the envelope having been taken out of the queue. *)
Theorem backend_failure_propagates (s : machine world) m rest l (fuel : nat) :
  storage (q_ (pool s)) = m :: rest -> worker_ptr m = Some l ->
  (msg_type m = async_msg_type.log ->
   match backend_sink_it_ l m (env s) with
   | (None, e') =>
       process_next_msg_ s = (Returns true, set_env e' (set_storage rest s)) /\
       worker_loop_ (S fuel) s = worker_loop_ fuel (set_env e' (set_storage rest s))
   | (Some x, e') =>
       process_next_msg_ s = (Throws x, set_env e' (set_storage rest s)) /\
       worker_loop_ (S fuel) s = (Throws x, set_env e' (set_storage rest s))
   end) /\
  (msg_type m = async_msg_type.flush ->
   match backend_flush_ l (env s) with
   | (None, e') =>
       process_next_msg_ s = (Returns true, set_env e' (set_storage rest s)) /\
       worker_loop_ (S fuel) s = worker_loop_ fuel (set_env e' (set_storage rest s))
   | (Some x, e') =>
       process_next_msg_ s = (Throws x, set_env e' (set_storage rest s)) /\
       worker_loop_ (S fuel) s = (Throws x, set_env e' (set_storage rest s))
   end).
Proof.
  intros Hq Hp. split; intros Ht.
  - pose proof (process_next_msg_log s m rest Hq Ht) as Hstep.
    unfold dispatch_to_destinations, bind, deref, call in Hstep.
    rewrite Hp in Hstep. simpl in Hstep.
    destruct (backend_sink_it_ l m (env s)) as [[x|] e']; simpl in Hstep;
      (split; [exact Hstep|]); simpl; unfold bind at 1; by rewrite Hstep.
  - pose proof (process_next_msg_flush s m rest Hq Ht) as Hstep.
    unfold flush_all_destinations, bind, deref, call in Hstep.
    rewrite Hp in Hstep. simpl in Hstep.
    destruct (backend_flush_ l (env s)) as [[x|] e']; simpl in Hstep;
      (split; [exact Hstep|]); simpl; unfold bind at 1; by rewrite Hstep.
Qed.

End Failures.

Lemma view_chars_own (chars : list ascii) :
  view_chars chars {| data := 0; size := length chars |} = chars.
Proof. unfold view_chars. simpl. by rewrite take_ge. Qed.

Lemma use_count_moved_in (l : logger_id) (p : async_logger_ptr)
    (held : list async_logger_ptr) :
  use_count l (None :: held ++ [p]) = use_count l (p :: held).
Proof.
  unfold use_count. rewrite filter_cons_False by done.
  rewrite filter_app, length_app. simpl.
  destruct (decide (p = Some l)) as [Hp|Hp].
  - rewrite !filter_cons_True by done. simpl. by rewrite Nat.add_1_r.
  - rewrite !filter_cons_False by done. simpl. by rewrite Nat.add_0_r.
Qed.

(** C8. [post_log] builds a log envelope and submits it under the given
    policy.  The envelope has its own copy of the record: its buffer holds the
    characters that the record's view showed in the producer's memory at the
    call, and its view ranges over that buffer.  The target is moved into the
    envelope: the envelope's [worker_ptr] is the caller's pointer, the
    caller's pointer is empty afterwards, and with the envelope in the queue
    the number of references to any logger is what it was. *)
Theorem post_log_envelope {world} (stack : memory) (p : async_logger_ptr)
    (msg : log_msg) (pol : async_overflow_policy) (s : machine world) (l : logger_id) :
  let envelope := fst (async_msg_ctor3 stack p async_msg_type.log msg) in
  msg_type envelope = async_msg_type.log /\
  buffer (base envelope) = view_chars stack (payload msg) /\
  payload (record (base envelope)) =
    {| data := 0; size := length (buffer (base envelope)) |} /\
  buffered_text (base envelope) = view_chars stack (payload msg) /\
  (time (record (base envelope)), level (record (base envelope)),
   source (record (base envelope))) = (time msg, level msg, source msg) /\
  worker_ptr envelope = p /\
  snd (async_msg_ctor3 stack p async_msg_type.log msg) = None /\
  post_log stack p msg pol s = (post_async_msg_ envelope pol ;; ret None)%pool s /\
  post_log stack p msg pol s =
    (if is_block pol && full (q_ (pool s)) then (Blocks, s)
     else (Returns None,
           {| pool := {| q_ := if full (q_ (pool s)) then count_overrun (q_ (pool s))
                               else push_back envelope (q_ (pool s));
                         threads_ := threads_ (pool s) |};
              env := env s |})) /\
  use_count l (None :: map worker_ptr (storage (q_ (pool s)) ++ [envelope])) =
  use_count l (p :: map worker_ptr (storage (q_ (pool s)))).
Proof.
  simpl. repeat split.
  - unfold buffered_text. simpl. apply view_chars_own.
  - unfold post_log, async_msg_ctor3, move_ptr, bind. simpl.
    rewrite post_async_msg_unfold.
    by destruct (is_block pol && full (q_ (pool s))).
  - rewrite map_app. simpl. apply use_count_moved_in.
Qed.

(** ** The properties at work *)

Lemma shutdown_protocol_witness :
  dtor (snd after_shutdown) = Destroyed /\
  shutdown_trace (fst after_shutdown) =
    [terminate_post; terminate_post; ev_joined 0; ev_joined 1] /\
  forall i, (i < 2)%nat ->
    exists t, threads_ (pool (mach (snd after_shutdown))) !! i = Some t /\
      state t = Exited /\ joined t = true /\
      length (filter (fun m => is_terminate m = true)
                (received i (fst after_shutdown))) = 1%nat /\
      exits i (fst after_shutdown) = 1%nat.
Proof.
  destruct (@shutdown_protocol _ recording 1%N 2%N empty_closure [] two_workers
              shutdown_schedule (fst after_shutdown) (snd after_shutdown)
              eq_refl eq_refl) as (_ & _ & _ & Hend & _).
  split; [reflexivity|]. exact (Hend eq_refl).
Defined.

Lemma process_next_msg_behaviours_witness :
  Forall well_tagged (storage (q_ (pool (mach backlog)))) /\
  @worker_loop_ _ recording 1 (mach backlog) =
    (Returns Running,
     set_env [(7%N, list_ascii_of_string "world")]
       (set_storage [hello_envelope] (mach backlog))) /\
  @worker_loop_ _ disk_full 1 (mach pending_flush) =
    (Throws (std_exception "disk full"),
     set_env [] (set_storage [hello_envelope] (mach pending_flush))) /\
  @worker_loop_ _ recording 3 (mach stopping) =
    (Returns Exited, set_storage [] (mach stopping)).
Proof.
  assert (Forall well_tagged (storage (q_ (pool (mach backlog))))) as Hlog.
  { apply Forall_cons. split; [by left|]. apply Forall_singleton. by left. }
  assert (Forall well_tagged (storage (q_ (pool (mach pending_flush))))) as Hflush.
  { apply Forall_cons. split; [right; by left|]. apply Forall_singleton. by left. }
  assert (Forall well_tagged (storage (q_ (pool (mach stopping))))) as Hterm.
  { apply Forall_singleton. right; right. reflexivity. }
  split; [exact Hlog|]. split; [|split].
  - destruct (@process_next_msg_behaviours _ recording (mach backlog) 0 Hlog)
      as [_ [[Hq _]|[(m & rest & Hq & Ht & Hm)|[(m & rest & Hq & Ht & _)|
                                                 (m & rest & Hq & Ht & _)]]]].
    + discriminate Hq.
    + injection Hq as <- <-. exact (proj2 Hm).
    + injection Hq as <- <-. discriminate Ht.
    + injection Hq as <- <-. discriminate Ht.
  - destruct (@process_next_msg_behaviours _ disk_full (mach pending_flush) 0 Hflush)
      as [_ [[Hq _]|[(m & rest & Hq & Ht & _)|[(m & rest & Hq & Ht & Hm)|
                                                (m & rest & Hq & Ht & _)]]]].
    + discriminate Hq.
    + injection Hq as <- <-. discriminate Ht.
    + injection Hq as <- <-. exact (proj2 Hm).
    + injection Hq as <- <-. discriminate Ht.
  - destruct (@process_next_msg_behaviours _ recording (mach stopping) 2 Hterm)
      as [_ [[Hq _]|[(m & rest & Hq & Ht & _)|[(m & rest & Hq & Ht & _)|
                                                (m & rest & Hq & _ & _ & _ & Hl)]]]].
    + discriminate Hq.
    + injection Hq as <- <-. discriminate Ht.
    + injection Hq as <- <-. discriminate Ht.
    + injection Hq as <- <-. exact Hl.
Defined.

Lemma default_arm_unreachable_witness :
  Forall no_assertion_failure (fst after_shutdown) /\
  fst (@process_next_msg_ _ recording (mach (snd after_shutdown))) <>
    Faults assertion_failure.
Proof.
  destruct (@default_arm_unreachable _ recording 1%N 2%N empty_closure [] two_workers
              shutdown_schedule (fst after_shutdown) (snd after_shutdown)
              eq_refl eq_refl) as (_ & Hh & Hp & _).
  split; [exact Hh|exact Hp].
Defined.


Lemma terminate_needs_no_target_witness :
  worker_ptr (async_msg_ctor1 async_msg_type.terminate) = None /\
  @process_next_msg_ _ disk_full (mach stopping) =
    (Returns false, set_storage [] (mach stopping)).
Proof.
  destruct (@terminate_needs_no_target _ disk_full) as (Hnull & _ & Hterm & _).
  split; [exact Hnull|].
  exact (Hterm (mach stopping) (async_msg_ctor1 async_msg_type.terminate) []
           eq_refl eq_refl).
Defined.

Lemma post_after_shutdown_witness :
  shutdown_begun stopping = true /\
  post_log hello (Some 7%N) hello_msg discard (mach stopping) =
    (Returns None,
     set_storage [async_msg_ctor1 async_msg_type.terminate; hello_envelope]
       (mach stopping)) /\
  post_flush (Some 7%N) block (mach stopping) =
    (Returns None,
     set_storage [async_msg_ctor1 async_msg_type.terminate; flush_envelope]
       (mach stopping)) /\
  shutdown_begun stopping_full = true /\
  post_log hello (Some 7%N) hello_msg block (mach stopping_full) =
    (Blocks, mach stopping_full) /\
  overrun_counter
    (snd (post_flush (Some 7%N) discard (mach stopping_full))) = 1%N /\
  storage (q_ (pool (snd (post_flush (Some 7%N) discard (mach stopping_full))))) =
    [async_msg_ctor1 async_msg_type.terminate].
Proof.
  destruct (@post_after_shutdown _ recording stopping hello (Some 7%N) hello_msg discard
              eq_refl) as (Hlog & _); [discriminate|].
  destruct (@post_after_shutdown _ recording stopping hello (Some 7%N) hello_msg block
              eq_refl) as (_ & Hflush & _); [discriminate|].
  destruct (@post_after_shutdown _ recording stopping_full hello (Some 7%N) hello_msg block
              eq_refl) as (Hblock & _); [discriminate|].
  destruct (@post_after_shutdown _ recording stopping_full hello (Some 7%N) hello_msg
              discard eq_refl) as (_ & Hdrop & _); [discriminate|].
  split; [reflexivity|]. split; [exact Hlog|]. split; [exact Hflush|].
  split; [reflexivity|]. split; [exact Hblock|].
  rewrite Hdrop. split; reflexivity.
Defined.

Lemma backend_failure_propagates_witness :
  @process_next_msg_ _ disk_full (mach backlog) =
    (Throws (std_exception "disk full"),
     set_env [] (set_storage [hello_envelope] (mach backlog))) /\
  @worker_loop_ _ disk_full 3 (mach backlog) =
    (Throws (std_exception "disk full"),
     set_env [] (set_storage [hello_envelope] (mach backlog))).
Proof.
  exact (proj1 (@backend_failure_propagates _ disk_full (mach backlog) hello_envelope
                  [hello_envelope] 7%N 2 eq_refl eq_refl) eq_refl).
Defined.

(** ** Where the code departs from what is said of it *)

(** C3 fails.  The queue of this pool holds a flush envelope as [post_flush]
    builds it, in front of a record, and the disk is full, so that the
    target's flush operation raises.  The iteration that takes the flush
    envelope does not leave the worker running: it ends with the exception,
    and the process is over.  Nor does the iteration that takes a record
    submitted without a target: it dereferences the null pointer. *)
Lemma process_next_msg_behaviours_counterexample :
  Forall well_tagged (storage (q_ (pool (mach pending_flush)))) /\
  storage (q_ (pool (mach pending_flush))) = [flush_envelope; hello_envelope] /\
  flush_envelope = fst (async_msg_ctor2 (Some 7%N) async_msg_type.flush) /\
  @process_next_msg_ _ disk_full (mach pending_flush) =
    (Throws (std_exception "disk full"),
     set_storage [hello_envelope] (mach pending_flush)) /\
  (forall m', @worker_loop_ _ disk_full 1 (mach pending_flush) <> (Returns Running, m')) /\
  match @step _ disk_full (run_thread 0) pending_flush with
  | Some (e, s') =>
      e = ev_processed 0 (Some flush_envelope) (Throws (std_exception "disk full")) /\
      halted s' = true /\
      storage (q_ (pool (mach s'))) = [hello_envelope] /\
      @step _ disk_full (run_thread 0) s' = None
  | None => False
  end /\
  (let untargeted := fst (async_msg_ctor3 hello None async_msg_type.log hello_msg) in
   post_log hello None hello_msg block (mach one_worker) =
     (Returns None, set_storage [untargeted] (mach one_worker)) /\
   well_tagged untargeted /\
   @worker_loop_ _ recording 1 (set_storage [untargeted] (mach one_worker)) =
     (Faults null_dereference, mach one_worker)).
Proof.
  split_and!; try done.
  - apply Forall_cons. split; [right; by left|]. apply Forall_singleton. by left.
  - cbv zeta. split_and!; try done. by left.
Qed.


(** C5 fails.  The destructor of this pool has been entered and has submitted
    its terminate envelope.  A [post_log] under the discard policy then
    returns without reporting anything, its envelope in the queue behind the
    terminate envelope; on the pool whose queue that envelope has filled, a
    [post_log] under the block policy suspends its caller. *)
Lemma post_after_shutdown_counterexample :
  shutdown_begun stopping = true /\
  post_log hello (Some 7%N) hello_msg discard (mach stopping) =
    (Returns None,
     set_storage [async_msg_ctor1 async_msg_type.terminate; hello_envelope]
       (mach stopping)) /\
  shutdown_begun stopping_full = true /\
  post_log hello (Some 7%N) hello_msg block (mach stopping_full) =
    (Blocks, mach stopping_full).
Proof. repeat split. Qed.

(** C6 fails.  The disk is full, so the dispatch operation raises.  The
    exception ends [process_next_msg_] and with it [worker_loop_]: the worker
    does not go on to the second record, which stays in the queue, and the
    process is over, so that no worker runs again. *)
Lemma backend_failure_counterexample :
  @backend_sink_it_ _ disk_full 7%N hello_envelope [] =
    (Some (std_exception "disk full"), []) /\
  @worker_loop_ _ disk_full 5 (mach backlog) =
    (Throws (std_exception "disk full"), set_storage [hello_envelope] (mach backlog)) /\
  match @step _ disk_full (run_thread 0) backlog with
  | Some (e, s') =>
      e = ev_processed 0 (Some hello_envelope) (Throws (std_exception "disk full")) /\
      halted s' = true /\
      storage (q_ (pool (mach s'))) = [hello_envelope] /\
      @step _ disk_full (run_thread 0) s' = None
  | None => False
  end.
Proof. repeat split. Qed.

(** * More of the code *)

(** ** The drain loop on a backlog *)

Section Backlog.
Context `{Environment world}.

Lemma machine_eta (s : machine world) :
  set_env (env s) (set_storage (storage (q_ (pool s))) s) = s.
Proof. by destruct s as [[[c st o] ts] e]. Qed.

Lemma process_next_msg_deliver (s : machine world) m rest :
  storage (q_ (pool s)) = m :: rest -> deliverable m ->
  process_next_msg_ s =
  (match fst (deliver_one m (env s)) with
   | None => Returns true
   | Some x => Throws x
   end,
   set_env (snd (deliver_one m (env s))) (set_storage rest s)).
Proof.
  intros Hq [Ht Hp]. unfold deliver_one.
  destruct (worker_ptr m) as [l|] eqn:Hl; [|done].
  destruct Ht as [Ht|Ht].
  - rewrite (process_next_msg_log s m rest Hq Ht), Ht.
    unfold dispatch_to_destinations, bind, deref, call, ret. rewrite Hl. simpl.
    by destruct (backend_sink_it_ l m (env s)) as [[x|] w].
  - rewrite (process_next_msg_flush s m rest Hq Ht), Ht.
    unfold flush_all_destinations, bind, deref, call, ret. rewrite Hl. simpl.
    by destruct (backend_flush_ l (env s)) as [[x|] w].
Qed.

Lemma worker_loop_deliver body : forall (s : machine world) rest k,
  storage (q_ (pool s)) = body ++ rest -> Forall deliverable body ->
  fst (deliver body (env s)) = None ->
  worker_loop_ (length body + k) s =
  worker_loop_ k (set_env (snd (deliver body (env s))) (set_storage rest s)).
Proof.
  induction body as [|m body IH]; intros s rest k Hq Hb Hd; simpl in *.
  { by rewrite <- Hq, machine_eta. }
  apply Forall_cons in Hb as [Hm Hb].
  unfold bind at 1. rewrite (process_next_msg_deliver s m (body ++ rest) Hq Hm).
  destruct (deliver_one m (env s)) as [[x|] w] eqn:Hone; simpl in *; [done|].
  by rewrite (IH (set_env w (set_storage (body ++ rest) s)) rest k eq_refl Hb Hd).
Qed.

Lemma worker_loop_raise body : forall (s : machine world) rest k x,
  storage (q_ (pool s)) = body ++ rest -> Forall deliverable body ->
  fst (deliver body (env s)) = Some x ->
  fst (worker_loop_ (length body + k) s) = Throws x /\
  env (snd (worker_loop_ (length body + k) s)) = snd (deliver body (env s)).
Proof.
  induction body as [|m body IH]; intros s rest k x Hq Hb Hd; simpl in *; [done|].
  apply Forall_cons in Hb as [Hm Hb].
  unfold bind. rewrite (process_next_msg_deliver s m (body ++ rest) Hq Hm).
  destruct (deliver_one m (env s)) as [[y|] w] eqn:Hone; simpl in *.
  - by injection Hd as ->.
  - by apply (IH (set_env w (set_storage (body ++ rest) s)) rest k x eq_refl Hb Hd).
Qed.

(** X1. A worker takes a backlog in the order of the queue.  With log and
    flush envelopes [body] in front of a terminate envelope, and none of the
    calls for them raising, [worker_loop_] makes these calls in order, takes
    the terminate envelope, and ends with the thread exited; what is behind
    the terminate envelope stays in the queue.  [length body + 1] iterations
    do it.  If one of the calls raises, the loop ends with that exception
    instead, the destinations as the calls up to it left them. *)
Theorem worker_drains_to_terminate (s : machine world) body t rest (k : nat) :
  storage (q_ (pool s)) = body ++ t :: rest ->
  Forall deliverable body ->
  msg_type t = async_msg_type.terminate ->
  match fst (deliver body (env s)) with
  | None =>
      worker_loop_ (S (length body + k)) s =
      (Returns Exited, set_env (snd (deliver body (env s))) (set_storage rest s))
  | Some x =>
      fst (worker_loop_ (S (length body + k)) s) = Throws x /\
      env (snd (worker_loop_ (S (length body + k)) s)) = snd (deliver body (env s))
  end.
Proof.
  intros Hq Hb Ht. rewrite <- Nat.add_succ_r.
  destruct (fst (deliver body (env s))) as [x|] eqn:Hd.
  - by apply (worker_loop_raise body s (t :: rest)).
  - rewrite (worker_loop_deliver body s (t :: rest) (S k) Hq Hb Hd). simpl.
    unfold bind.
    by rewrite (process_next_msg_terminate
                  (set_env (snd (deliver body (env s))) (set_storage (t :: rest) s))
                  t rest eq_refl Ht).
Qed.

(** X2. A worker with nothing to do stays in its loop: on an empty queue
    every iteration times out, and any number of them leaves the pool and the
    destinations as they were. *)
Theorem worker_idles (s : machine world) (fuel : nat) :
  storage (q_ (pool s)) = [] -> worker_loop_ fuel s = (Returns Running, s).
Proof.
  intros Hq. induction fuel as [|fuel IH]; [done|]. simpl.
  unfold bind. by rewrite (process_next_msg_empty s Hq).
Qed.

(** X3. Whatever happens in it, also when a call raises or faults, the drain
    loop leaves [threads_], the capacity and the overrun counter alone, puts
    nothing in the queue, and takes at most one envelope per iteration, from
    the front. *)
Theorem worker_loop_frame (fuel : nat) (s : machine world) :
  threads_ (pool (snd (worker_loop_ fuel s))) = threads_ (pool s) /\
  capacity (q_ (pool (snd (worker_loop_ fuel s)))) = capacity (q_ (pool s)) /\
  overrun_count (q_ (pool (snd (worker_loop_ fuel s)))) = overrun_count (q_ (pool s)) /\
  exists n, (n <= fuel)%nat /\
    storage (q_ (pool (snd (worker_loop_ fuel s)))) = drop n (storage (q_ (pool s))).
Proof.
  revert s. induction fuel as [|fuel IH]; intros s; simpl.
  { split_and!; try done. exists 0%nat. by rewrite drop_0. }
  unfold bind. destruct (process_next_msg_ s) as [r s1] eqn:Hp.
  apply process_next_msg_effect in Hp as (Hq & Hts & _ & _).
  assert (storage (q_ (pool s1)) = drop 1 (storage (q_ (pool s)))) as Hst.
  { rewrite Hq. simpl. by destruct (storage (q_ (pool s))). }
  assert (threads_ (pool s1) = threads_ (pool s) /\
          capacity (q_ (pool s1)) = capacity (q_ (pool s)) /\
          overrun_count (q_ (pool s1)) = overrun_count (q_ (pool s)) /\
          exists n, (n <= S fuel)%nat /\
            storage (q_ (pool s1)) = drop n (storage (q_ (pool s)))) as Hone.
  { rewrite Hq. split_and!; try done. exists 1%nat. split; [lia|]. by rewrite <- Hst, Hq. }
  destruct r as [[]| | |]; simpl; try exact Hone.
  destruct (IH s1) as (Ht' & Hc' & Ho' & n & Hn & Hs').
  rewrite Ht', Hc', Ho', Hs', Hts, Hst, Hq. simpl. split_and!; try done.
  exists (S n). split; [lia|]. rewrite drop_drop. by rewrite Nat.add_1_l.
Qed.

(** X4. An envelope whose [msg_type] is none of the three enumerators falls
    into the [default] arm.  Built without [NDEBUG], [process_next_msg_] stops
    at [assert(false)]; built with it, the call returns true: the envelope has
    been taken out of the queue and nothing has been called for it. *)
Theorem process_next_msg_unknown_tag (s : machine world) m rest :
  storage (q_ (pool s)) = m :: rest ->
  msg_type m <> async_msg_type.log -> msg_type m <> async_msg_type.flush ->
  msg_type m <> async_msg_type.terminate ->
  process_next_msg_ s =
  (if NDEBUG then Returns true else Faults assertion_failure, set_storage rest s).
Proof.
  intros Hq Hl Hf Ht. unfold process_next_msg_. unfold bind at 1.
  unfold with_q, dequeue_for. rewrite Hq. simpl.
  apply Z.eqb_neq in Hl, Hf, Ht. rewrite Hl, Hf, Ht.
  unfold bind, assert_false, ret, abort. by destruct NDEBUG.
Qed.

Lemma deliver_app ms1 ms2 (w : world) :
  deliver (ms1 ++ ms2) w =
  match deliver ms1 w with
  | (None, w') => deliver ms2 w'
  | r => r
  end.
Proof.
  revert w. induction ms1 as [|m ms1 IH]; intros w; simpl; [done|].
  by destruct (deliver_one m w) as [[x|] w'].
Qed.

Lemma post_log_state (stack : memory) p msg pol (s : machine world) :
  full (q_ (pool s)) = false ->
  post_log stack p msg pol s =
  (Returns None,
   set_storage (storage (q_ (pool s)) ++
                [fst (async_msg_ctor3 stack p async_msg_type.log msg)]) s).
Proof.
  intros Hf. unfold post_log, async_msg_ctor3, move_ptr, bind. simpl.
  rewrite post_async_msg_unfold, Hf, andb_false_r. done.
Qed.

Lemma post_flush_state p pol (s : machine world) :
  full (q_ (pool s)) = false ->
  post_flush p pol s =
  (Returns None,
   set_storage (storage (q_ (pool s)) ++
                [fst (async_msg_ctor2 p async_msg_type.flush)]) s).
Proof.
  intros Hf. unfold post_flush, async_msg_ctor2, move_ptr, bind. simpl.
  rewrite post_async_msg_unfold, Hf, andb_false_r. done.
Qed.

(** X6. From [post_log] to the destination.  Let the queue have room and
    hold only log and flush envelopes with a target, and let none of the
    calls for them, nor the call for the new record, raise.  A record then
    submitted with [post_log] is dispatched after everything that was queued
    before it: a worker that runs one iteration per queued envelope and one
    more has made the calls for those, in order, and then [backend_sink_it_]
    on the target that was given, with the envelope that holds the copy of
    the record; the queue is empty then. *)
Theorem post_log_then_drain (stack : memory) (l : logger_id) msg pol
    (s : machine world) (k : nat) :
  let envelope := fst (async_msg_ctor3 stack (Some l) async_msg_type.log msg) in
  full (q_ (pool s)) = false ->
  Forall deliverable (storage (q_ (pool s))) ->
  fst (deliver (storage (q_ (pool s)) ++ [envelope]) (env s)) = None ->
  deliver (storage (q_ (pool s)) ++ [envelope]) (env s) =
    match deliver (storage (q_ (pool s))) (env s) with
    | (None, w) => backend_sink_it_ l envelope w
    | r => r
    end /\
  worker_loop_ (S (length (storage (q_ (pool s)))) + k)
    (snd (post_log stack (Some l) msg pol s)) =
  worker_loop_ k
    (set_env (snd (deliver (storage (q_ (pool s)) ++ [envelope]) (env s)))
       (set_storage [] s)).
Proof.
  intros envelope Hf Hq Hd. split.
  - rewrite deliver_app.
    destruct (deliver (storage (q_ (pool s))) (env s)) as [[x|] w]; [done|].
    simpl. unfold deliver_one. simpl. by destruct (backend_sink_it_ l envelope w) as [[y|] w'].
  - assert ((S (length (storage (q_ (pool s)))) + k)%nat =
            (length (storage (q_ (pool s)) ++ [envelope]) + k)%nat) as ->
      by (rewrite length_app; simpl; lia).
    rewrite (post_log_state stack (Some l) msg pol s Hf). cbn [snd]. fold envelope.
    rewrite (worker_loop_deliver (storage (q_ (pool s)) ++ [envelope]) _ [] k).
    + done.
    + simpl. by rewrite app_nil_r.
    + apply Forall_app. split; [done|]. apply Forall_singleton. split; [by left|done].
    + done.
Qed.

(** X7. From [post_flush] to the destination.  Let the queue have room and
    hold only log and flush envelopes with a target, and let none of the
    calls for them, nor the flush requested, raise.  A flush then requested
    with [post_flush] is carried out after everything that was queued before
    it: a worker that runs one iteration per queued envelope and one more has
    made the calls for those, in order, and then [backend_flush_] on the
    target that was given; the queue is empty then. *)
Theorem post_flush_then_drain (l : logger_id) pol (s : machine world) (k : nat) :
  let envelope := fst (async_msg_ctor2 (Some l) async_msg_type.flush) in
  full (q_ (pool s)) = false ->
  Forall deliverable (storage (q_ (pool s))) ->
  fst (deliver (storage (q_ (pool s)) ++ [envelope]) (env s)) = None ->
  deliver (storage (q_ (pool s)) ++ [envelope]) (env s) =
    match deliver (storage (q_ (pool s))) (env s) with
    | (None, w) => backend_flush_ l w
    | r => r
    end /\
  worker_loop_ (S (length (storage (q_ (pool s)))) + k)
    (snd (post_flush (Some l) pol s)) =
  worker_loop_ k
    (set_env (snd (deliver (storage (q_ (pool s)) ++ [envelope]) (env s)))
       (set_storage [] s)).
Proof.
  intros envelope Hf Hq Hd. split.
  - rewrite deliver_app.
    destruct (deliver (storage (q_ (pool s))) (env s)) as [[x|] w]; [done|].
    simpl. unfold deliver_one. simpl. by destruct (backend_flush_ l w) as [[y|] w'].
  - assert ((S (length (storage (q_ (pool s)))) + k)%nat =
            (length (storage (q_ (pool s)) ++ [envelope]) + k)%nat) as ->
      by (rewrite length_app; simpl; lia).
    rewrite (post_flush_state (Some l) pol s Hf). cbn [snd]. fold envelope.
    rewrite (worker_loop_deliver (storage (q_ (pool s)) ++ [envelope]) _ [] k).
    + done.
    + simpl. by rewrite app_nil_r.
    + apply Forall_app. split; [done|]. apply Forall_singleton. split; [by right|done].
    + done.
Qed.

End Backlog.

(** X5. [post_flush] builds a flush envelope without a record and submits it
    under the given policy.  The target is moved into the envelope: the
    caller's pointer is empty afterwards, and with the envelope in the queue
    the number of references to any logger is what it was.  Under the block
    policy with a full queue the producer is suspended; otherwise the call
    returns, the envelope being dropped and counted when the queue is full. *)
Theorem post_flush_envelope {world} (p : async_logger_ptr)
    (pol : async_overflow_policy) (s : machine world) (l : logger_id) :
  let envelope := fst (async_msg_ctor2 p async_msg_type.flush) in
  msg_type envelope = async_msg_type.flush /\
  base envelope = log_msg_buffer_default /\
  buffered_text (base envelope) = [] /\
  worker_ptr envelope = p /\
  snd (async_msg_ctor2 p async_msg_type.flush) = None /\
  post_flush p pol s =
    (if is_block pol && full (q_ (pool s)) then (Blocks, s)
     else (Returns None,
           {| pool := {| q_ := if full (q_ (pool s)) then count_overrun (q_ (pool s))
                               else push_back envelope (q_ (pool s));
                         threads_ := threads_ (pool s) |};
              env := env s |})) /\
  use_count l (None :: map worker_ptr (storage (q_ (pool s)) ++ [envelope])) =
  use_count l (p :: map worker_ptr (storage (q_ (pool s)))).
Proof.
  simpl. split_and!; try done.
  - unfold post_flush, async_msg_ctor2, move_ptr, bind. simpl.
    rewrite post_async_msg_unfold.
    by destruct (is_block pol && full (q_ (pool s))).
  - rewrite map_app. simpl. apply use_count_moved_in.
Qed.

(** ** The counters of the pool *)

Section Counters.
Context `{Environment world}.
Implicit Types (s : system world) (h : list event).

Lemma trans_capacity_const s e s' :
  trans s e s' -> capacity (q_ (pool (mach s'))) = capacity (q_ (pool (mach s))).
Proof.
  intros Ht. trans_cases Ht; try rewrite Hm; try rewrite Hq; try done.
  by destruct (full (q_ (pool (mach s)))).
Qed.

Lemma run_capacity_const acts : forall s h s',
  run acts s = Some (h, s') ->
  capacity (q_ (pool (mach s'))) = capacity (q_ (pool (mach s))).
Proof.
  induction acts as [|a acts IH]; intros s h s'; simpl.
  - by intros [= <- <-].
  - destruct (step a s) as [[e s1]|] eqn:Hstep; [|done].
    destruct (run acts s1) as [[h1 s2]|] eqn:Hrun; [|done].
    intros [= <- <-]. rewrite (IH _ _ _ Hrun).
    by apply (trans_capacity_const s e), (step_trans a).
Qed.

(** X8. [queue_size] never exceeds the [q_max_items] the pool was constructed
    with, wherever a run of producers, workers and the destructor has got
    to. *)
Theorem queue_size_bounded (q_max_items threads_n : size_t)
    (on_thread_start : external world) (e0 : world) s0 acts h s :
  boot q_max_items threads_n on_thread_start e0 = Some s0 ->
  run acts s0 = Some (h, s) ->
  (queue_size (mach s) <= q_max_items)%N.
Proof.
  intros Hboot Hrun.
  destruct (reachable_invariant _ _ _ _ _ _ _ _ Hboot Hrun) as [Hinv _].
  pose proof (inv_capacity _ _ Hinv) as Hcap.
  rewrite (run_capacity_const _ _ _ _ Hrun) in Hcap.
  apply boot_state in Hboot as ->. exact Hcap.
Qed.

Lemma trans_overrun_step s e s' :
  trans s e s' ->
  overrun_count (q_ (pool (mach s'))) =
    (overrun_count (q_ (pool (mach s))) + N.of_nat (length (discarded [e])))%N /\
  dropped_by_producer e.
Proof.
  intros Ht. trans_cases Ht; try rewrite Hm; try rewrite Hq; simpl;
    try (split; [lia|done]).
  destruct (full (q_ (pool (mach s)))) eqn:Hf; simpl; split; try lia; try done.
  split; [done|]. by apply Hfull.
Qed.

Lemma run_overrun acts : forall s h s',
  run acts s = Some (h, s') ->
  overrun_count (q_ (pool (mach s'))) =
    (overrun_count (q_ (pool (mach s))) + N.of_nat (length (discarded h)))%N /\
  Forall dropped_by_producer h.
Proof.
  induction acts as [|a acts IH]; intros s h s'; simpl.
  - intros [= <- <-]. simpl. split; [lia|done].
  - destruct (step a s) as [[e s1]|] eqn:Hstep; [|done].
    destruct (run acts s1) as [[h1 s2]|] eqn:Hrun; [|done].
    intros [= <- <-]. destruct (IH _ _ _ Hrun) as [Ho Hd].
    destruct (trans_overrun_step s e s1 (step_trans a _ _ _ Hstep)) as [Ho1 Hd1].
    split; [|by apply Forall_cons].
    rewrite Ho, Ho1. change (e :: h1) with ([e] ++ h1).
    unfold discarded. rewrite flat_map_app, length_app. lia.
Qed.

(** X9. [overrun_counter] only grows, and by exactly the number of
    submissions dropped since: from any state of the pool, after any run, it
    is what it was plus the number of envelopes that [post_log] and
    [post_flush] dropped under the discard policy.  Workers, the destructor
    and submissions under the block policy never change it. *)
Theorem overrun_counter_counts s acts h s' :
  run acts s = Some (h, s') ->
  overrun_counter (mach s') =
    (overrun_counter (mach s) + N.of_nat (length (discarded h)))%N /\
  (overrun_counter (mach s) <= overrun_counter (mach s'))%N /\
  Forall dropped_by_producer h.
Proof.
  intros Hrun. destruct (run_overrun _ _ _ _ Hrun) as [Ho Hd].
  unfold overrun_counter. split; [done|]. split; [lia|done].
Qed.

Lemma exited_le_total (ts : list (thread world)) i t :
  ts !! i = Some t -> (exited t <= exited_total ts)%nat.
Proof.
  unfold exited_total. revert i. induction ts as [|t0 ts IH]; intros [|i]; simpl; try done.
  - intros [= ->]. lia.
  - intros Hi. specialize (IH i Hi). lia.
Qed.

Lemma count_terminate_none l :
  count_terminate l = 0%nat -> Forall (fun m => is_terminate m = false) l.
Proof.
  induction l as [|m l IH]; [done|]. rewrite count_terminate_cons.
  destruct (is_terminate m) eqn:Hm; [done|]. intros Hc.
  apply Forall_cons. split; [done|]. by apply IH.
Qed.

Lemma step_halted a s e s' :
  step a s = Some (e, s') -> halted s' = ends_process e.
Proof.
  unfold step. destruct (halted s); [done|].
  destruct a as [i| |stack p msg pol|p pol].
  - destruct (threads_ (pool (mach s)) !! i) as [t|]; [|done].
    destruct (thread_step i t (mach s)) as [r m]. unfold thread_event.
    destruct r as [st| | |]; try done; intros [= <- <-]; by destruct (state t).
  - destruct (thread_pool_dtor_step (dtor s) (mach s)) as [[pc'| | |] m]; try done.
    intros [= <- <-]. simpl. unfold dtor_event. by destruct (dtor s), pc'.
  - destruct (dtor s), (post_log stack p msg pol (mach s)) as [[q| | |] m]; try done;
      by intros [= <- <-].
  - destruct (dtor s), (post_flush p pol (mach s)) as [[q| | |] m]; try done;
      by intros [= <- <-].
Qed.

Lemma run_halted_nil acts s h s' :
  halted s = true -> run acts s = Some (h, s') -> h = [] /\ s' = s.
Proof.
  intros Hh. destruct acts as [|a acts]; simpl; [by intros [= <- <-]|].
  unfold step. by rewrite Hh.
Qed.

Lemma run_halted acts : forall s h s',
  halted s = false -> run acts s = Some (h, s') ->
  halted s' = existsb ends_process h /\
  forall h1 e h2, h = h1 ++ e :: h2 -> ends_process e = true -> h2 = [].
Proof.
  induction acts as [|a acts IH]; intros s h s' Hh; simpl.
  - intros [= <- <-]. split; [done|]. by intros [|??] ??.
  - destruct (step a s) as [[e s1]|] eqn:Hstep; [|done].
    destruct (run acts s1) as [[h1 s2]|] eqn:Hrun; [|done].
    intros [= <- <-]. pose proof (step_halted a s e s1 Hstep) as He. simpl.
    destruct (halted s1) eqn:Hh1.
    + destruct (run_halted_nil acts s1 h1 s2 Hh1 Hrun) as [-> ->].
      rewrite <- He, Hh1. split; [done|].
      intros [|e1 [|??]] e2 h2; simpl; try done. by intros [= <- <-].
    + destruct (IH s1 h1 s2 Hh1 Hrun) as [Hex Hlast]. rewrite <- He. split; [done|].
      intros [|e1 h0] e2 h2; simpl.
      * intros [= <- <-]. by rewrite <- He.
      * intros [= <- ->] He2. by apply (Hlast h0 e2 h2).
Qed.

Lemma halted_stops s a : halted s = true -> step a s = None.
Proof. intros Hh. unfold step. by rewrite Hh. Qed.

(** X11. As long as the destructor has not been called, no worker returns
    from its drain loop: whatever is submitted and however the threads are
    scheduled, the pool has its [threads_n] threads, none of them has exited,
    none has been joined, and there is no terminate envelope in the queue.  A
    worker leaves its loop before that only with an exception or a fault, of
    its hook or of an iteration, and such a step ends the process: the
    process is over exactly when the run has such a step, the step is then
    the last of the run, and nothing runs after it. *)
Theorem no_exit_before_shutdown (q_max_items threads_n : size_t)
    (on_thread_start : external world) (e0 : world) s0 acts h s :
  boot q_max_items threads_n on_thread_start e0 = Some s0 ->
  run acts s0 = Some (h, s) ->
  dtor s = Alive ->
  length (threads_ (pool (mach s))) = N.to_nat threads_n /\
  (forall i t, threads_ (pool (mach s)) !! i = Some t ->
     state t <> Exited /\ exits i h = 0%nat /\ joined t = false) /\
  Forall (fun m => is_terminate m = false) (storage (q_ (pool (mach s)))) /\
  halted s = existsb ends_process h /\
  (forall h1 e h2, h = h1 ++ e :: h2 -> ends_process e = true -> h2 = []) /\
  (halted s = true -> forall a, step a s = None).
Proof.
  intros Hboot Hrun Hd.
  destruct (reachable_invariant _ _ _ _ _ _ _ _ Hboot Hrun) as [Hinv Hlen].
  pose proof (inv_terminates _ _ Hinv) as Htm. rewrite Hd in Htm. simpl in Htm.
  assert (halted s0 = false) as Hh0 by (by apply boot_state in Hboot as ->).
  destruct (run_halted acts s0 h s Hh0 Hrun) as [Hex Hlast].
  split; [done|]. split; [|split; [apply count_terminate_none; lia|]].
  - intros i t Hi.
    assert (exited t = 0%nat) as Hz.
    { pose proof (exited_le_total _ _ _ Hi) as Hle. lia. }
    split; [|split].
    + unfold exited in Hz. intros Hst. by rewrite Hst in Hz.
    + destruct (inv_workers _ _ Hinv i t Hi) as [_ Hx]. by rewrite Hx.
    + destruct (inv_joined _ _ Hinv i t Hi) as [Hj _]. rewrite Hd in Hj. simpl in Hj.
      destruct (joined t); [|done]. assert (i < 0)%nat by by apply Hj. lia.
  - split; [done|]. split; [done|]. intros Hh a. by apply halted_stops.
Qed.

(** X10. The destructor joins each thread once, so that [join] never throws
    in it and the handler of [SPDLOG_CATCH_STD] is never entered for a
    join: when the second loop is at thread [j], that thread has not been
    joined; [join] returns if the thread has exited and waits otherwise. *)
Theorem destructor_join_never_throws (q_max_items threads_n : size_t)
    (on_thread_start : external world) (e0 : world) s0 acts h s j t :
  boot q_max_items threads_n on_thread_start e0 = Some s0 ->
  run acts s0 = Some (h, s) ->
  dtor s = Joining j ->
  threads_ (pool (mach s)) !! j = Some t ->
  joined t = false /\
  fst (join j t (mach s)) =
    match state t with Exited => Returns tt | _ => Blocks end.
Proof.
  intros Hboot Hrun Hd Hj.
  destruct (reachable_invariant _ _ _ _ _ _ _ _ Hboot Hrun) as [Hinv _].
  destruct (inv_joined _ _ Hinv j t Hj) as [Hjn _]. rewrite Hd in Hjn. simpl in Hjn.
  assert (joined t = false) as Hnj.
  { destruct (joined t); [|done]. assert (j < j)%nat by by apply Hjn. lia. }
  split; [done|]. unfold join. rewrite Hnj. by destruct (state t).
Qed.

End Counters.

(** ** A pool that is constructed and destroyed *)

Section Quiet.
Context `{Environment world}.
Implicit Types (s : system world) (h : list event).

Lemma silent_reliable : @reliable world silent.
Proof. by split. Qed.

Lemma process_next_msg_quiet (m : machine world) :
  Forall (fun x => msg_type x = async_msg_type.terminate) (storage (q_ (pool m))) ->
  @process_next_msg_ world silent m = process_next_msg_ m /\
  env (snd (process_next_msg_ m)) = env m /\
  Forall (fun x => msg_type x = async_msg_type.terminate)
         (storage (q_ (pool (snd (process_next_msg_ m))))) /\
  threads_ (pool (snd (process_next_msg_ m))) = threads_ (pool m) /\
  exists b, fst (process_next_msg_ m) = Returns b.
Proof.
  intros Hq. destruct (storage (q_ (pool m))) as [|x rest] eqn:Hs.
  - rewrite (@process_next_msg_empty _ H m Hs), (@process_next_msg_empty _ silent m Hs).
    simpl. rewrite Hs. split_and!; try done. by exists true.
  - apply Forall_cons in Hq as [Hx Hrest].
    rewrite (@process_next_msg_terminate _ H m x rest Hs Hx),
      (@process_next_msg_terminate _ silent m x rest Hs Hx).
    simpl. split_and!; try done. by exists false.
Qed.

Lemma thread_step_silent i (t : thread world) (m : machine world) :
  Forall (fun x => msg_type x = async_msg_type.terminate) (storage (q_ (pool m))) ->
  @thread_step world silent i t m = thread_step i t m.
Proof.
  intros Hq. unfold thread_step. destruct (state t); [done| |done].
  destruct (process_next_msg_quiet m Hq) as (Hsame & _).
  unfold bind. by rewrite Hsame.
Qed.

Lemma step_silent e s a :
  quiet e s -> of_pool a -> @step world silent a s = step a s.
Proof.
  intros (Hh & He & Hq & Hts) Ha. destruct a as [i| | |]; [| |done|done]; [|done].
  unfold step. rewrite Hh.
  destruct (threads_ (pool (mach s)) !! i) as [t|]; [|done].
  by rewrite (thread_step_silent i t (mach s) Hq).
Qed.

Lemma quiet_step e s a ev s' :
  quiet e s -> of_pool a -> step a s = Some (ev, s') -> quiet e s'.
Proof.
  intros (Hh & He & Hq & Hts) Ha. destruct a as [i| | |]; [| |done|done].
  - unfold step. rewrite Hh.
    destruct (threads_ (pool (mach s)) !! i) as [t|] eqn:Hi; [|done].
    pose proof (proj1 (Forall_lookup _ _) Hts i t Hi) as Hhook.
    unfold thread_step, thread_event. destruct (state t) eqn:Hst; [| |done].
    + unfold bind, call, with_threads, ret. rewrite Hhook. simpl.
      intros [= <- <-]. split_and!; try done. simpl.
      apply Forall_alter; [done|]. by intros t0 _ Ht0.
    + destruct (process_next_msg_quiet (mach s) Hq) as (_ & Henv & Hq' & Hts' & b & Hb).
      unfold bind at 1.
      destruct (process_next_msg_ (mach s)) as [r m'] eqn:Hp. simpl in *. subst r.
      destruct b; unfold bind, with_threads, ret; simpl; intros [= <- <-];
        split_and!; simpl; try done; try congruence.
      rewrite Hts'. apply Forall_alter; [done|]. by intros t0 _ Ht0.
  - unfold step. rewrite Hh.
    destruct (thread_pool_dtor_step (dtor s) (mach s)) as [r m'] eqn:Hd.
    destruct r as [pc'| | |]; try done. intros [= <- <-].
    revert Hd. unfold thread_pool_dtor_step, try_catch_std.
    destruct (dtor s) as [|i|j|]; simpl.
    + intros [= <- <-]. by split_and!.
    + destruct (i <? length (threads_ (pool (mach s))))%nat.
      * unfold bind. rewrite post_async_msg_unfold. simpl.
        destruct (full (q_ (pool (mach s)))); simpl; [done|].
        intros [= <- <-]. split_and!; simpl; try done.
        apply Forall_app. split; [done|]. by apply Forall_singleton.
      * intros [= <- <-]. by split_and!.
    + destruct (threads_ (pool (mach s)) !! j) as [t|] eqn:Hj.
      * unfold bind, join, throw, with_threads.
        destruct (joined t); simpl; [intros [= <- <-]; by split_and!|].
        destruct (state t); simpl; try done.
        intros [= <- <-]. split_and!; simpl; try done.
        apply Forall_alter; [done|]. by intros t0 _ Ht0.
      * intros [= <- <-]. by split_and!.
    + done.
Qed.

Lemma quiet_run e acts : forall s h s',
  quiet e s -> Forall of_pool acts ->
  @run world silent acts s = Some (h, s') -> run acts s = Some (h, s').
Proof.
  induction acts as [|a acts IH]; intros s h s' Hquiet Hacts; simpl; [done|].
  apply Forall_cons in Hacts as [Ha Hacts].
  rewrite (step_silent e s a Hquiet Ha).
  destruct (step a s) as [[ev s1]|] eqn:Hstep; [|done].
  pose proof (quiet_step e s a ev s1 Hquiet Ha Hstep) as Hquiet1.
  destruct (@run world silent acts s1) as [[h1 s2]|] eqn:Hrun; [|done].
  by rewrite (IH s1 h1 s2 Hquiet1 Hacts Hrun).
Qed.

Lemma quiet_kept e acts : forall s h s',
  quiet e s -> Forall of_pool acts -> run acts s = Some (h, s') -> quiet e s'.
Proof.
  induction acts as [|a acts IH]; intros s h s' Hquiet Hacts; simpl.
  - by intros [= <- <-].
  - apply Forall_cons in Hacts as [Ha Hacts].
    destruct (step a s) as [[ev s1]|] eqn:Hstep; [|done].
    destruct (run acts s1) as [[h1 s2]|] eqn:Hrun; [|done].
    intros [= <- <-]. apply (IH s1 h1); [|done|done].
    by apply (quiet_step e s a ev s1).
Qed.

(** X12. Constructing a pool with the two-argument constructor and
    destroying it.  For a thread count from 1 to 1000 and a queue with at
    least one slot, the constructor returns; from there the pool alone can
    take the destructor to its end, whatever the front-end is; and as long
    as nothing is submitted, no step of a worker or of the destructor fails
    or touches the destinations. *)
Theorem construct_and_destroy (q_max_items threads_n : size_t) (e : world) :
  (1 <= threads_n <= 1000)%N -> (0 < q_max_items)%N ->
  exists s0,
    thread_pool_ctor2 q_max_items threads_n e = (Returns tt, mach s0) /\
    boot q_max_items threads_n empty_closure e = Some s0 /\
    (exists s', reaches s0 s' /\ dtor s' = Destroyed) /\
    (forall s', reaches s0 s' -> env (mach s') = e /\ halted s' = false).
Proof.
  intros [Hlo Hhi] Hcap.
  destruct (boot q_max_items threads_n empty_closure e) as [s0|] eqn:Hboot.
  2: { revert Hboot. unfold boot, thread_pool_ctor, thread_pool_body.
       assert ((threads_n =? 0)%N || (1000 <? threads_n)%N = false) as ->.
       { apply orb_false_iff. split; [apply N.eqb_neq|apply N.ltb_ge]; lia. }
       unfold bind at 1. simpl. by rewrite emplace_threads. }
  exists s0. pose proof (boot_state _ _ _ _ _ Hboot) as Hs0.
  assert (quiet e s0) as Hquiet.
  { subst s0. split_and!; simpl; try done.
    apply Forall_forall. by intros t [-> _]%elem_of_replicate. }
  split_and!.
  - revert Hboot. unfold boot, thread_pool_ctor2.
    destruct (thread_pool_ctor q_max_items threads_n empty_closure e) as [[[]| | |] m];
      try done. by intros [= <-].
  - done.
  - destruct (@destructor_returns world silent silent_reliable s0 [])
      as (s' & (acts & h' & Hacts & Hrun) & Hd).
    + by eapply boot_invariant.
    + by eapply boot_serviceable.
    + exists s'. split; [|done]. exists acts, h'. split; [done|].
      by apply (quiet_run e).
  - intros s' (acts & h' & Hacts & Hrun).
    destruct (quiet_kept e acts s0 h' s' Hquiet Hacts Hrun) as (Hh & He & _). done.
Qed.

End Quiet.

(** ** Moving an envelope *)

Lemma use_count_cons (l : logger_id) (p : async_logger_ptr)
    (held : list async_logger_ptr) :
  use_count l (p :: held) =
  ((if decide (p = Some l) then 1 else 0) + use_count l held)%nat.
Proof.
  unfold use_count. case_decide.
  - by rewrite filter_cons_True.
  - by rewrite filter_cons_False.
Qed.

(** X15. Moving an envelope hands the target over.  After the move
    constructor the new envelope has the tag, the record and the target of
    the source, the source holds no target, and the two together hold as many
    references to any logger as the source did.  After the move assignment
    the same is true of the assigned envelope and the source, and the
    reference that the assigned envelope held before is gone. *)
Theorem async_msg_move_transfers (leftover : log_msg_buffer) (this other : async_msg)
    (l : logger_id) :
  let '(built, source) := async_msg_move_ctor leftover other in
  let '(assigned, source') := async_msg_move_assign leftover this other in
  (msg_type built, base built, worker_ptr built) =
    (msg_type other, base other, worker_ptr other) /\
  worker_ptr source = None /\
  use_count l [worker_ptr built; worker_ptr source] = use_count l [worker_ptr other] /\
  (msg_type assigned, base assigned, worker_ptr assigned) =
    (msg_type other, base other, worker_ptr other) /\
  worker_ptr source' = None /\
  (use_count l [worker_ptr assigned; worker_ptr source'] + use_count l [worker_ptr this] =
   use_count l [worker_ptr this; worker_ptr other])%nat.
Proof.
  destruct this as [b1 t1 p1], other as [b2 t2 p2].
  cbv [async_msg_move_ctor async_msg_move_assign move_ptr worker_ptr msg_type base].
  rewrite !use_count_cons. unfold use_count at 1 2 3 4 5. simpl.
  split_and!; try done; repeat case_decide; try done; lia.
Qed.

(** ** The thread wrappers *)

(** X13. The destructor of a [thread_guard] never throws.  It waits while the
    guarded thread is joinable and still running; otherwise it returns, and
    the thread is then not joinable, so that destroying it does not call
    [std::terminate].  A bare [join] on a thread that is not joinable throws
    the [std::system_error] of an invalid argument instead. *)
Theorem thread_guard_joins (t : std_thread) :
  thread_guard_dtor t =
    (if joinable t && negb (returned t) then (Blocks, t)
     else (Returns tt, {| joinable := false; returned := returned t |})) /\
  (forall x, fst (thread_guard_dtor t) <> Throws x) /\
  (fst (thread_guard_dtor t) = Returns tt ->
   joinable (snd (thread_guard_dtor t)) = false /\
   std_thread_dtor (snd (thread_guard_dtor t)) = destroyed /\
   thread_guard_dtor (snd (thread_guard_dtor t)) = (Returns tt, snd (thread_guard_dtor t))) /\
  (joinable t = false ->
   std_thread_join t = (Throws (std_exception "Invalid argument"), t)).
Proof.
  destruct t as [[] []]; unfold thread_guard_dtor, std_thread_join, std_thread_dtor;
    simpl; split_and!; try done.
Qed.

(** X14. A [scoped_thread] does not join its thread.  Its constructor throws
    "No thread" for a thread that is not joinable and takes over a joinable
    one as it is; its destructor only asks [joinable()], so that the member
    is still joinable when it is destroyed: the destruction of every
    [scoped_thread] that was constructed ends in [std::terminate]. *)
Theorem scoped_thread_never_joins (t : std_thread) :
  (joinable t = false ->
   scoped_thread_ctor t = Throws (std_exception "No thread")) /\
  (forall g, scoped_thread_ctor t = Returns g ->
     joinable t = true /\ t_ g = t /\ scoped_thread_dtor g = terminate_called).
Proof.
  unfold scoped_thread_ctor, scoped_thread_dtor, std_thread_dtor. simpl.
  destruct (joinable t) eqn:Hj; simpl; split; try done.
  intros g [= <-]. simpl. by rewrite Hj.
Qed.

(** ** These properties at work *)

Lemma worker_drains_to_terminate_witness :
  @worker_loop_ _ recording 3 busy =
  (Returns Exited,
   set_env [(7%N, list_ascii_of_string "world"); (7%N, [])]
     (set_storage [hello_envelope] busy)).
Proof.
  assert (Forall deliverable [hello_envelope; flush_envelope]) as Hb.
  { repeat apply Forall_cons_2; [split; [by left|done]|split; [by right|done]|done]. }
  exact (@worker_drains_to_terminate _ recording busy [hello_envelope; flush_envelope]
           (async_msg_ctor1 async_msg_type.terminate) [hello_envelope] 0
           eq_refl Hb eq_refl).
Defined.

Lemma worker_idles_witness :
  @worker_loop_ _ recording 5 (mach two_workers) = (Returns Running, mach two_workers).
Proof. exact (@worker_idles _ recording (mach two_workers) 5 eq_refl). Defined.

Lemma process_next_msg_unknown_tag_witness :
  @process_next_msg_ _ recording stray =
    (Faults assertion_failure, set_storage [] stray) /\
  @process_next_msg_ _ recording_ndebug stray = (Returns true, set_storage [] stray).
Proof.
  split.
  - apply (@process_next_msg_unknown_tag _ recording stray
             {| base := log_msg_buffer_default; msg_type := 7; worker_ptr := Some 7%N |} []);
      [reflexivity|discriminate|discriminate|discriminate].
  - apply (@process_next_msg_unknown_tag _ recording_ndebug stray
             {| base := log_msg_buffer_default; msg_type := 7; worker_ptr := Some 7%N |} []);
      [reflexivity|discriminate|discriminate|discriminate].
Defined.

Lemma queued_deliverable : Forall deliverable (storage (q_ (pool queued))).
Proof.
  apply Forall_cons. split; [split; [by right|done]|].
  apply Forall_singleton. split; [by left|done].
Qed.

Lemma post_log_then_drain_witness :
  full (q_ (pool queued)) = false /\
  storage (q_ (pool queued)) = [flush_envelope; hello_envelope] /\
  @worker_loop_ _ journal 3
    (snd (post_log hello (Some 9%N) hello_msg block queued)) =
  (Returns Running,
   set_env [flushed 7%N; written 7%N (list_ascii_of_string "world");
            written 9%N (list_ascii_of_string "world")]
     (set_storage [] queued)).
Proof.
  split; [reflexivity|]. split; [reflexivity|].
  exact (proj2 (@post_log_then_drain _ journal hello 9%N hello_msg block
                  queued 0 eq_refl queued_deliverable eq_refl)).
Defined.

Lemma post_flush_then_drain_witness :
  full (q_ (pool queued)) = false /\
  storage (q_ (pool queued)) = [flush_envelope; hello_envelope] /\
  @worker_loop_ _ journal 3 (snd (post_flush (Some 9%N) discard queued)) =
  (Returns Running,
   set_env [flushed 7%N; written 7%N (list_ascii_of_string "world"); flushed 9%N]
     (set_storage [] queued)).
Proof.
  split; [reflexivity|]. split; [reflexivity|].
  exact (proj2 (@post_flush_then_drain _ journal 9%N discard
                  queued 0 eq_refl queued_deliverable eq_refl)).
Defined.

Lemma queue_size_bounded_witness :
  (queue_size (mach (snd overflowing)) <= 1)%N.
Proof.
  exact (@queue_size_bounded _ recording 1%N 2%N empty_closure [] two_workers
           [call_post_log hello (Some 7%N) hello_msg discard;
            call_post_log hello (Some 7%N) hello_msg discard]
           (fst overflowing) (snd overflowing) eq_refl eq_refl).
Defined.

Lemma overrun_counter_counts_witness :
  overrun_counter (mach (snd overflowing)) = 1%N /\
  discarded (fst overflowing) = [hello_envelope].
Proof.
  split; [|reflexivity].
  exact (proj1 (@overrun_counter_counts _ recording two_workers
                  [call_post_log hello (Some 7%N) hello_msg discard;
                   call_post_log hello (Some 7%N) hello_msg discard]
                  (fst overflowing) (snd overflowing) eq_refl)).
Defined.

Lemma destructor_join_never_throws_witness :
  dtor (snd joining) = Joining 0 /\
  fst (join 0 (set_state Exited (new_thread empty_closure)) (mach (snd joining))) =
    Returns tt.
Proof.
  split; [reflexivity|].
  exact (proj2 (@destructor_join_never_throws _ recording 1%N 2%N empty_closure []
                  two_workers (take 10 shutdown_schedule) (fst joining) (snd joining)
                  0%nat (set_state Exited (new_thread empty_closure))
                  eq_refl eq_refl eq_refl eq_refl)).
Defined.

Lemma no_exit_before_shutdown_witness :
  dtor (snd before_shutdown) = Alive /\
  halted (snd before_shutdown) = false /\
  Forall (fun m => is_terminate m = false)
         (storage (q_ (pool (mach (snd before_shutdown))))) /\
  dtor (snd failed_dispatch) = Alive /\
  halted (snd failed_dispatch) = true /\
  (forall i t, threads_ (pool (mach (snd failed_dispatch))) !! i = Some t ->
     state t <> Exited /\ exits i (fst failed_dispatch) = 0%nat /\ joined t = false) /\
  forall a, @step _ disk_full a (snd failed_dispatch) = None.
Proof.
  destruct (@no_exit_before_shutdown _ recording 1%N 2%N empty_closure []
              two_workers (take 4 shutdown_schedule)
              (fst before_shutdown) (snd before_shutdown)
              eq_refl eq_refl eq_refl) as (_ & _ & Hq & _).
  destruct (@no_exit_before_shutdown _ disk_full 1%N 2%N empty_closure []
              two_workers
              [run_thread 0; call_post_log hello (Some 7%N) hello_msg block; run_thread 0]
              (fst failed_dispatch) (snd failed_dispatch)
              eq_refl eq_refl eq_refl) as (_ & Hts & _ & Hh & _ & Hstop).
  split; [reflexivity|]. split; [reflexivity|]. split; [exact Hq|].
  split; [reflexivity|]. split; [exact Hh|]. split; [exact Hts|].
  exact (Hstop Hh).
Defined.

Lemma construct_and_destroy_witness :
  exists s0 : system (list (logger_id * list ascii)),
    thread_pool_ctor2 1%N 2%N [] = (Returns tt, mach s0) /\
    boot 1%N 2%N empty_closure [] = Some s0 /\
    (exists s', @reaches _ disk_full s0 s' /\ dtor s' = Destroyed) /\
    (forall s', @reaches _ disk_full s0 s' -> env (mach s') = [] /\ halted s' = false).
Proof. apply (@construct_and_destroy _ disk_full 1%N 2%N []); lia. Defined.

Lemma thread_guard_joins_witness :
  thread_guard_dtor {| joinable := true; returned := true |} =
    (Returns tt, {| joinable := false; returned := true |}) /\
  std_thread_dtor (snd (thread_guard_dtor {| joinable := true; returned := true |})) =
    destroyed /\
  std_thread_join {| joinable := false; returned := true |} =
    (Throws (std_exception "Invalid argument"), {| joinable := false; returned := true |}).
Proof.
  destruct (thread_guard_joins {| joinable := true; returned := true |})
    as (Heq & _ & Hret & _).
  destruct (Hret eq_refl) as (_ & Hd & _).
  split; [exact Heq|]. split; [exact Hd|].
  exact (proj2 (proj2 (proj2 (thread_guard_joins
                                {| joinable := false; returned := true |}))) eq_refl).
Defined.

Lemma scoped_thread_never_joins_witness :
  scoped_thread_ctor {| joinable := false; returned := false |} =
    Throws (std_exception "No thread") /\
  scoped_thread_ctor {| joinable := true; returned := false |} =
    Returns {| t_ := {| joinable := true; returned := false |} |} /\
  scoped_thread_dtor {| t_ := {| joinable := true; returned := false |} |} =
    terminate_called.
Proof.
  split; [exact (proj1 (scoped_thread_never_joins
                          {| joinable := false; returned := false |}) eq_refl)|].
  split; [reflexivity|].
  exact (proj2 (proj2 (proj2 (scoped_thread_never_joins
                                {| joinable := true; returned := false |})
                         {| t_ := {| joinable := true; returned := false |} |}
                         eq_refl))).
Defined.

(** ** Edges of submission and of thread start-up *)

Section Edges.
Context `{Environment world}.
Implicit Types (s : system world) (h : list event).

(** X16. Neither [post_log] nor [post_flush] checks the target.  A submission
    with an empty pointer is put in the queue like any other, and the worker
    that takes it dereferences the null pointer: [process_next_msg_] faults,
    the envelope having been taken out of the queue. *)
Theorem empty_target_faults_in_worker (stack : memory) msg pol (s : machine world) :
  full (q_ (pool s)) = false -> storage (q_ (pool s)) = [] ->
  fst (post_log stack None msg pol s) = Returns None /\
  process_next_msg_ (snd (post_log stack None msg pol s)) =
    (Faults null_dereference, set_storage [] s) /\
  fst (post_flush None pol s) = Returns None /\
  process_next_msg_ (snd (post_flush None pol s)) =
    (Faults null_dereference, set_storage [] s).
Proof.
  intros Hf Hq.
  rewrite (post_log_state stack None msg pol s Hf), (post_flush_state None pol s Hf), Hq.
  simpl. by split_and!.
Qed.

(** X17. The start-up hook runs once, as the first step of its thread, before
    any envelope is taken.  When it returns the thread is in its drain loop,
    the queue untouched.  When it throws, the exception leaves the thread:
    the process is over and no thread or producer runs again. *)
Theorem start_hook_runs_first s i t :
  halted s = false ->
  threads_ (pool (mach s)) !! i = Some t -> state t = Starting ->
  match on_thread_start t (env (mach s)) with
  | (None, w) =>
      step (run_thread i) s =
      Some (ev_started i (Returns Running),
            {| mach := {| pool := {| q_ := q_ (pool (mach s));
                                     threads_ := alter (set_state Running) i
                                                   (threads_ (pool (mach s))) |};
                          env := w |};
               dtor := dtor s; halted := false |})
  | (Some x, w) =>
      step (run_thread i) s =
      Some (ev_started i (Throws x),
            {| mach := set_env w (mach s); dtor := dtor s; halted := true |}) /\
      forall a, step a {| mach := set_env w (mach s); dtor := dtor s; halted := true |} = None
  end.
Proof.
  intros Hh Hi Hst.
  assert (forall r m,
            thread_step i t (mach s) = (r, m) -> r <> Blocks ->
            step (run_thread i) s =
            Some (ev_started i r, after s r m (dtor s))) as Hstep.
  { intros r m Hts Hr. unfold step. rewrite Hh, Hi, Hts.
    unfold thread_event. rewrite Hst. by destruct r. }
  unfold thread_step in Hstep. rewrite Hst in Hstep.
  unfold bind, call, with_threads, ret in Hstep.
  destruct (on_thread_start t (env (mach s))) as [[x|] w]; simpl in Hstep.
  - split; [by apply (Hstep _ _ eq_refl)|]. by intros a.
  - by apply (Hstep _ _ eq_refl).
Qed.

Lemma exited_total_all (ts : list (thread world)) :
  Forall (fun t => state t = Exited) ts -> exited_total ts = length ts.
Proof.
  unfold exited_total. induction 1 as [|t ts Ht _ IH]; [done|]. simpl.
  unfold exited at 1. rewrite Ht, IH. done.
Qed.

(** X18. Terminate envelopes are accounted for.  At every point of every
    run, the terminate envelopes in the queue and the workers that have
    exited are together as many as the destructor has submitted.  When the
    destructor has returned all workers have exited, so that no terminate
    envelope is left in the queue. *)
Theorem terminate_accounting (q_max_items threads_n : size_t)
    (on_thread_start : external world) (e0 : world) s0 acts h s :
  boot q_max_items threads_n on_thread_start e0 = Some s0 ->
  run acts s0 = Some (h, s) ->
  (count_terminate (storage (q_ (pool (mach s)))) +
   exited_total (threads_ (pool (mach s))) =
   posts_done (N.to_nat threads_n) (dtor s))%nat /\
  (dtor s = Destroyed ->
   exited_total (threads_ (pool (mach s))) = N.to_nat threads_n /\
   Forall (fun m => is_terminate m = false) (storage (q_ (pool (mach s))))).
Proof.
  intros Hboot Hrun.
  destruct (reachable_invariant _ _ _ _ _ _ _ _ Hboot Hrun) as [Hinv Hlen].
  pose proof (inv_terminates _ _ Hinv) as Htm. rewrite Hlen in Htm.
  split; [done|]. intros Hd. rewrite Hd in Htm. simpl in Htm.
  assert (exited_total (threads_ (pool (mach s))) = N.to_nat threads_n) as Hall.
  { rewrite <- Hlen. apply exited_total_all. apply Forall_lookup. intros i t Hi.
    destruct (inv_joined _ _ Hinv i t Hi) as [Hj Hx]. rewrite Hd in Hj. simpl in Hj.
    apply Hx, Hj. by apply lookup_lt_Some in Hi. }
  split; [done|]. apply count_terminate_none. lia.
Qed.

End Edges.

Lemma empty_target_faults_in_worker_witness :
  @process_next_msg_ _ recording
    (snd (post_log hello None hello_msg block (mach two_workers))) =
    (Faults null_dereference, set_storage [] (mach two_workers)).
Proof.
  exact (proj1 (proj2 (@empty_target_faults_in_worker _ recording hello hello_msg block
                         (mach two_workers) eq_refl eq_refl))).
Defined.

Lemma start_hook_runs_first_witness :
  @step _ recording (run_thread 0) failing_start =
    Some (ev_started 0 (Throws (std_exception "no hook")),
          {| mach := mach failing_start; dtor := Alive; halted := true |}) /\
  @step _ recording run_destructor
    {| mach := mach failing_start; dtor := Alive; halted := true |} = None.
Proof.
  destruct (@start_hook_runs_first _ recording failing_start 0
              (new_thread (fun w => (Some (std_exception "no hook"), w)))
              eq_refl eq_refl eq_refl) as [Hstep Hdead].
  split; [exact Hstep|exact (Hdead run_destructor)].
Defined.

Lemma terminate_accounting_witness :
  exited_total (threads_ (pool (mach (snd after_shutdown)))) = 2%nat /\
  Forall (fun m => is_terminate m = false)
         (storage (q_ (pool (mach (snd after_shutdown))))).
Proof.
  exact (proj2 (@terminate_accounting _ recording 1%N 2%N empty_closure [] two_workers
                  shutdown_schedule (fst after_shutdown) (snd after_shutdown)
                  eq_refl eq_refl) eq_refl).
Defined.
